(** * Manually incremented timers (srslte/common/timers.h)

    A shallow embedding of the two timer services of [timers.h]:
    - [FixedPool]: class [timers] with its nested class [timer], a
      preallocated vector of slots stepped one by one, with a bitmap id
      allocator;
    - [HeapService]: class [timers2] with [timer_impl], the move-only handle
      [unique_timer] and the priority queue of [timer_run] events.

    Conventions.
    - [uint32_t] values on which the code does arithmetic (counters, timeouts,
      the current time, the number of used ids) are integers in [Z], and every
      [++], [--] and [+] of the source is followed by an explicit reduction
      modulo 2^32.
    - [std::vector] is a [list]; [v[i]] is stdpp's lookup [v !! i] and
      [v[i] = x] is [<[i:=x]> v].  An index outside the vector is undefined
      behaviour in C++; the embedding leaves the vector as it is there.
    - A callback is opaque to this header.  It is identified by a number, and
      every invocation is recorded, in order, in a trace of events together
      with the messages of [printf] and [ERROR].  The call itself has no
      effect on the registry or the service here: what is stated of [step()]
      and [step_all()] is stated of callbacks that do not call back into the
      timers, and of the statements of the functions themselves otherwise. *)

From stdpp Require Import base numbers list sorting.

Local Open Scope Z_scope.

(** ** 32-bit unsigned arithmetic *)

Definition UINT32_MAX : Z := 4294967295.

Definition wrap32 (z : Z) : Z := z mod 4294967296.

(** ** The fixed-pool registry: [class timers] *)

Module FixedPool.

(** A [timer_callback*]: [None] is the null pointer, [Some c] points to the
    callback object number [c]. *)
Definition timer_callback := nat.

(** What the registry does that is visible from outside. *)
Inductive event :=
| timer_expired (cb : timer_callback) (timer_id : Z)
    (* callback->timer_expired(id) *)
| error_invalid_timer (i nof_timers : Z)
    (* printf of get *)
| error_releasing (i nof_used_timers nof_timers : Z)
    (* ERROR of release_id *)
| error_no_more_timers
    (* first ERROR of get_unique_id *)
| error_no_more_timers_but (nof_used_timers nof_timers : Z).
    (* second ERROR of get_unique_id *)

(** *** [class timers::timer] *)

Record timer := mk_timer {
  id : Z;
  callback : option timer_callback;
  timeout : Z;
  counter : Z;
  running : bool
}.

(** [timer(uint32_t id_ = 0)] *)
Definition timer_new (id_ : Z) : timer :=
  {| id := id_; callback := None; timeout := 0; counter := 0; running := false |}.

Definition reset (t : timer) : timer :=
  {| id := id t; callback := callback t; timeout := timeout t;
     counter := 0; running := running t |}.

Definition set (callback_ : option timer_callback) (timeout_ : Z) (t : timer) : timer :=
  reset {| id := id t; callback := callback_; timeout := timeout_;
           counter := counter t; running := running t |}.

Definition is_running (t : timer) : bool :=
  (counter t <? timeout t) && running t.

Definition is_expired (t : timer) : bool :=
  (0 <? timeout t) && (timeout t <=? counter t).

Definition get_timeout (t : timer) : Z := timeout t.

Definition value (t : timer) : Z := counter t.

Definition stop (t : timer) : timer :=
  {| id := id t; callback := callback t; timeout := timeout t;
     counter := counter t; running := false |}.

Definition run (t : timer) : timer :=
  {| id := id t; callback := callback t; timeout := timeout t;
     counter := counter t; running := true |}.

(** [counter++] *)
Definition incr_counter (t : timer) : timer :=
  {| id := id t; callback := callback t; timeout := timeout t;
     counter := wrap32 (counter t + 1); running := running t |}.

(** [step()]: the slot after the call and the events of the call. *)
Definition step (t : timer) : timer * list event :=
  if running t then
    let t1 := incr_counter t in
    if is_expired t1 then
      let t2 := stop t1 in
      match callback t2 with
      | Some cb => (t2, [timer_expired cb (id t2)])
      | None => (t2, [])
      end
    else (t1, [])
  else (t, []).

(** [n] consecutive calls of [step()], with the events in order. *)
Fixpoint steps (n : nat) (t : timer) : timer * list event :=
  match n with
  | O => (t, [])
  | S n' =>
      let '(t1, tr1) := step t in
      let '(t2, tr2) := steps n' t1 in
      (t2, tr1 ++ tr2)
  end.

(** *** [class timers] *)

Record timers := mk_timers {
  next_timer : Z;
  nof_used_timers : Z;
  nof_timers : Z;
  timer_list : list timer;
  used_timers : list bool
}.

(** [timers(uint32_t nof_timers_)] *)
Definition timers_new (nof_timers_ : Z) : timers :=
  {| next_timer := 0;
     nof_used_timers := 0;
     nof_timers := nof_timers_;
     timer_list := (λ i : nat, timer_new (Z.of_nat i)) <$> seq 0 (Z.to_nat nof_timers_);
     used_timers := replicate (Z.to_nat nof_timers_) false |}.

Definition with_timer_list (l : list timer) (s : timers) : timers :=
  {| next_timer := next_timer s; nof_used_timers := nof_used_timers s;
     nof_timers := nof_timers s; timer_list := l; used_timers := used_timers s |}.

(** The allocator's part of the state. *)
Definition with_used (u : list bool) (n : Z) (s : timers) : timers :=
  {| next_timer := next_timer s; nof_used_timers := n;
     nof_timers := nof_timers s; timer_list := timer_list s; used_timers := u |}.

(** [get(i)]: the slot, or the null pointer and a message. *)
Definition get (i : Z) (s : timers) : option timer * list event :=
  if i <? nof_timers s then (timer_list s !! Z.to_nat i, [])
  else (None, [error_invalid_timer i (nof_timers s)]).

(** The loops [for (i = 0; i < nof_timers; i++) get(i)->f()] of [stop_all],
    [run_all] and [reset_all]: [f] changes the slot and has no event. *)
Definition for_all (f : timer → timer) (s : timers) : timers :=
  with_timer_list (f <$> timer_list s) s.

Definition stop_all : timers → timers := for_all stop.
Definition run_all : timers → timers := for_all run.
Definition reset_all : timers → timers := for_all reset.

(** [step_all()]: the slots are stepped in the order of their ids. *)
Fixpoint step_list (l : list timer) : list timer * list event :=
  match l with
  | [] => ([], [])
  | t :: l' =>
      let '(t1, tr1) := step t in
      let '(l1, tr2) := step_list l' in
      (t1 :: l1, tr1 ++ tr2)
  end.

Definition step_all (s : timers) : timers * list event :=
  let '(l, tr) := step_list (timer_list s) in (with_timer_list l s, tr).

Definition release_id (i : Z) (s : timers) : timers * list event :=
  if (0 <? nof_used_timers s) && (i <? nof_timers s) then
    (with_used (<[Z.to_nat i := false]> (used_timers s))
               (wrap32 (nof_used_timers s - 1)) s, [])
  else
    (s, [error_releasing i (nof_used_timers s) (nof_timers s)]).

(** The scan of [get_unique_id]: [i] is the loop variable and [n] the number
    of iterations left, [nof_timers - i].  The result is the first [i] with
    [!used_timers[i]]. *)
Fixpoint first_unused (used : list bool) (i : Z) (n : nat) : option Z :=
  match n with
  | O => None
  | S n' =>
      match used !! Z.to_nat i with
      | Some false => Some i
      | _ => first_unused used (i + 1) n'
      end
  end.

(** [get_unique_id()]: the returned id, the registry and the events. *)
Definition get_unique_id (s : timers) : Z * timers * list event :=
  if nof_timers s <=? nof_used_timers s then
    (0, s, [error_no_more_timers])
  else
    match first_unused (used_timers s) 0 (Z.to_nat (nof_timers s)) with
    | Some i =>
        (i, with_used (<[Z.to_nat i := true]> (used_timers s))
                      (wrap32 (nof_used_timers s + 1)) s, [])
    | None =>
        (0, s, [error_no_more_timers_but (nof_used_timers s) (nof_timers s)])
    end.

(** The number of ids marked used in the bitmap. *)
Definition count_used (used : list bool) : nat :=
  length (List.filter (λ b : bool, b) used).

(** The allocator is consistent: the bitmap has one entry per slot and the
    used-count is the number of entries marked used. *)
Definition alloc_ok (s : timers) : Prop :=
  0 ≤ nof_timers s ≤ UINT32_MAX ∧
  length (used_timers s) = Z.to_nat (nof_timers s) ∧
  nof_used_timers s = Z.of_nat (count_used (used_timers s)).

(** [k] consecutive calls of [get_unique_id()]: the ids returned, in order,
    the registry and the events. *)
Fixpoint get_unique_ids (k : nat) (s : timers) : list Z * timers * list event :=
  match k with
  | O => ([], s, [])
  | S k' =>
      let '(i, s1, e1) := get_unique_id s in
      let '(ids, s2, e2) := get_unique_ids k' s1 in
      (i :: ids, s2, e1 ++ e2)
  end.

End FixedPool.

(** ** The heap-scheduled service: [class timers2] *)

Module HeapService.

(** A [std::function<void(uint32_t)>] value: [None] is the empty function
    (calling it throws [std::bad_function_call]), [Some f] holds the callable
    number [f]. *)
Definition callback_fn := nat.

Inductive event :=
| called (f : callback_fn) (timer_id : nat)
    (* callback(id()) *)
| error_setting_inactive (timer_id : nat)
    (* ERROR of timer_impl::set *)
| error_run_inactive (timer_id : nat).
    (* ERROR of timer_impl::run *)

(** *** [struct timers2::timer_impl]

    The back pointer [parent] is not a field here: there is one service, and
    the functions that need it take the service state. [id()] is the index of
    the slot in [timer_list]. *)
Record timer_impl := mk_timer_impl {
  duration : Z;
  timeout : Z;
  running : bool;
  active : bool;
  callback : option callback_fn
}.

(** [explicit timer_impl(timers2* parent_)] and the default initialisers. *)
Definition timer_impl_new : timer_impl :=
  {| duration := 0; timeout := 0; running := false; active := false;
     callback := None |}.

Definition is_running (t : timer_impl) : bool :=
  active t && running t && (0 <? timeout t).

Definition is_expired (t : timer_impl) : bool :=
  active t && negb (running t) && (0 <? timeout t).

Definition set_running (b : bool) (t : timer_impl) : timer_impl :=
  {| duration := duration t; timeout := timeout t; running := b;
     active := active t; callback := callback t |}.

Definition set_active (b : bool) (t : timer_impl) : timer_impl :=
  {| duration := duration t; timeout := timeout t; running := running t;
     active := b; callback := callback t |}.

(** The body of [set(duration_, callback_)] after the [active] test. *)
Definition set_cb_slot (duration_ : Z) (callback_ : option callback_fn)
    (t : timer_impl) : timer_impl :=
  {| duration := duration_; timeout := timeout t; running := false;
     active := active t; callback := callback_ |}.

(** The body of [set(duration_)] after the [active] test. *)
Definition set_slot (duration_ : Z) (t : timer_impl) : timer_impl :=
  {| duration := duration_; timeout := timeout t; running := false;
     active := active t; callback := callback t |}.

(** The slot part of [run()], with [timeout_ = parent->cur_time + duration]. *)
Definition run_slot (timeout_ : Z) (t : timer_impl) : timer_impl :=
  {| duration := duration t; timeout := timeout_; running := true;
     active := active t; callback := callback t |}.

(** [clear()] *)
Definition clear (t : timer_impl) : timer_impl :=
  {| duration := 0; timeout := 0; running := false; active := false;
     callback := None |}.

(** *** [struct timers2::timer_run], the entries of the priority queue *)
Record timer_run := mk_timer_run {
  run_timer_id : nat;
  run_timeout : Z
}.

(** *** [std::priority_queue<timer_run>]

    The standard library's queue is not part of this header.  Its interface
    is a class; [operator<] of [timer_run] compares [timeout] in reverse, so
    [top()] is an entry of least [timeout].  Which of several entries with the
    same least [timeout] is on top is left to the implementation, and so it
    is here. [pq_elements] is the content of the queue, in no order. *)
Class PriorityQueue (Q : Type) := {
  pq_new : Q;
  pq_elements : Q → list timer_run;
  pq_emplace : timer_run → Q → Q;
  pq_top : Q → option timer_run;
  pq_pop : Q → Q
}.

Definition pq_size `{PriorityQueue Q} (q : Q) : nat := length (pq_elements q).

Class PriorityQueueLaws (Q : Type) `{PriorityQueue Q} : Prop := {
  pq_elements_new : pq_elements pq_new = [];
  pq_elements_emplace e q : pq_elements (pq_emplace e q) ≡ₚ e :: pq_elements q;
  pq_top_None q : pq_top q = None ↔ pq_elements q = [];
  pq_top_least q e e' :
    pq_top q = Some e → e' ∈ pq_elements q → run_timeout e ≤ run_timeout e';
  pq_elements_pop q e :
    pq_top q = Some e → pq_elements q ≡ₚ e :: pq_elements (pq_pop q)
}.

(** The order of the queue: [e] may leave before [e']. *)
Definition timeout_le (e e' : timer_run) : Prop := run_timeout e ≤ run_timeout e'.

(** A queue to run the service on: a list kept in ascending order of
    [timeout], a new entry going before the entries of the same [timeout]. *)
Fixpoint sorted_insert (e : timer_run) (q : list timer_run) : list timer_run :=
  match q with
  | [] => [e]
  | e' :: q' =>
      if run_timeout e <=? run_timeout e' then e :: q
      else e' :: sorted_insert e q'
  end.

(** Contents of any order are put in order first, so that the laws hold for
    every list and not only for the ordered ones. *)
Definition sorted_of (q : list timer_run) : list timer_run :=
  foldr sorted_insert [] q.

#[export] Instance sorted_queue : PriorityQueue (list timer_run) := {
  pq_new := [];
  pq_elements q := q;
  pq_emplace e q := sorted_insert e (sorted_of q);
  pq_top q := head (sorted_of q);
  pq_pop q := tail (sorted_of q)
}.

(** *** [class timers2] *)

Section Service.
Context {Q : Type} `{PriorityQueue Q}.

(** [trace] is not a member of the class: it records, oldest first, the
    callbacks called and the errors printed so far. *)
Record timers2 := mk_timers2 {
  timer_list : list timer_impl;
  running_timers : Q;
  cur_time : Z;
  trace : list event
}.

(** [timers2] has no constructor of its own: the default member values. *)
Definition timers2_new : timers2 :=
  {| timer_list := []; running_timers := pq_new; cur_time := 0; trace := [] |}.

Definition with_timer_list (l : list timer_impl) (s : timers2) : timers2 :=
  {| timer_list := l; running_timers := running_timers s;
     cur_time := cur_time s; trace := trace s |}.

Definition with_running_timers (q : Q) (s : timers2) : timers2 :=
  {| timer_list := timer_list s; running_timers := q;
     cur_time := cur_time s; trace := trace s |}.

Definition with_cur_time (c : Z) (s : timers2) : timers2 :=
  {| timer_list := timer_list s; running_timers := running_timers s;
     cur_time := c; trace := trace s |}.

Definition log (e : event) (s : timers2) : timers2 :=
  {| timer_list := timer_list s; running_timers := running_timers s;
     cur_time := cur_time s; trace := trace s ++ [e] |}.

(** [timer_list[i] = f(timer_list[i])] *)
Definition update_slot (i : nat) (f : timer_impl → timer_impl) (s : timers2) : timers2 :=
  with_timer_list (alter f i (timer_list s)) s.

Definition get_cur_time (s : timers2) : Z := cur_time s.

(** [timer_impl::set(duration_, callback_)] on slot [i]. *)
Definition impl_set_cb (i : nat) (duration_ : Z) (callback_ : option callback_fn)
    (s : timers2) : timers2 :=
  match timer_list s !! i with
  | Some t =>
      if negb (active t) then log (error_setting_inactive i) s
      else update_slot i (set_cb_slot duration_ callback_) s
  | None => s
  end.

(** [timer_impl::set(duration_)] on slot [i]. *)
Definition impl_set (i : nat) (duration_ : Z) (s : timers2) : timers2 :=
  match timer_list s !! i with
  | Some t =>
      if negb (active t) then log (error_setting_inactive i) s
      else update_slot i (set_slot duration_) s
  | None => s
  end.

(** [timer_impl::run()] on slot [i]. *)
Definition impl_run (i : nat) (s : timers2) : timers2 :=
  match timer_list s !! i with
  | Some t =>
      if negb (active t) then log (error_run_inactive i) s
      else
        let timeout_ := wrap32 (cur_time s + duration t) in
        with_running_timers
          (pq_emplace {| run_timer_id := i; run_timeout := timeout_ |}
                      (running_timers s))
          (update_slot i (run_slot timeout_) s)
  | None => s
  end.

(** [timer_impl::clear()] on slot [i]. *)
Definition impl_clear (i : nat) (s : timers2) : timers2 := update_slot i clear s.

(** How a call ended: by returning, or by the [std::bad_function_call] that
    calling an empty [std::function] throws. *)
Inductive status := returned | bad_function_call.

(** [timer_impl::trigger()] on slot [i].  The exception leaves the slot as it
    was: [running = false] comes after the call. *)
Definition impl_trigger (i : nat) (s : timers2) : status * timers2 :=
  match timer_list s !! i with
  | Some t =>
      if is_running t then
        match callback t with
        | Some f => (returned, update_slot i (set_running false) (log (called f i) s))
        | None => (bad_function_call, s)
        end
      else (returned, s)
  | None => (returned, s)
  end.

(** The body of the [while] loop of [step_all()] before [pop()]: the slot
    named by the top entry is triggered if its [timeout] is the entry's. *)
Definition trigger_top (top : timer_run) (s : timers2) : status * timers2 :=
  match timer_list s !! run_timer_id top with
  | Some ptr =>
      if timeout ptr =? run_timeout top
      then impl_trigger (run_timer_id top) s
      else (returned, s)
  | None => (returned, s)
  end.

(** The [while] loop of [step_all()].  Every iteration pops one entry and
    nothing is pushed meanwhile, so the loop runs at most [running_timers.size()]
    times: [n] bounds the iterations left. *)
Fixpoint step_all_loop (n : nat) (s : timers2) : status * timers2 :=
  match n with
  | O => (returned, s)
  | S n' =>
      match pq_top (running_timers s) with
      | None => (returned, s)
      | Some top =>
          if run_timeout top <? cur_time s then
            match trigger_top top s with
            | (returned, s1) =>
                step_all_loop n' (with_running_timers (pq_pop (running_timers s1)) s1)
            | (bad_function_call, s1) => (bad_function_call, s1)
            end
          else (returned, s)
      end
  end.

Definition step_all (s : timers2) : status * timers2 :=
  let s1 := with_cur_time (wrap32 (cur_time s + 1)) s in
  step_all_loop (pq_size (running_timers s1)) s1.

(** [n] calls of [step_all()] in a row; a call that throws ends the row. *)
Fixpoint step_all_times (n : nat) (s : timers2) : status * timers2 :=
  match n with
  | O => (returned, s)
  | S n' =>
      match step_all s with
      | (returned, s1) => step_all_times n' s1
      | (bad_function_call, s1) => (bad_function_call, s1)
      end
  end.

(** The first loop of [stop_all()], bounded like the loop of [step_all()]. *)
Fixpoint pop_all (n : nat) (q : Q) : Q :=
  match n with
  | O => q
  | S n' =>
      match pq_top q with
      | None => q
      | Some _ => pop_all n' (pq_pop q)
      end
  end.

Definition stop_all (s : timers2) : timers2 :=
  with_timer_list (set_running false <$> timer_list s)
    (with_running_timers (pop_all (pq_size (running_timers s)) (running_timers s)) s).

(** The scan of [get_unique_timer()]: the first [i] from [i0] on with
    [not timer_list[i].active], or the size of the vector. *)
Fixpoint first_inactive (l : list timer_impl) (i0 : nat) : nat :=
  match l with
  | [] => i0
  | t :: l' => if negb (active t) then i0 else first_inactive l' (S i0)
  end.

(** *** [class timers2::unique_timer]

    [parent] is the service or [nullptr]: [true] for the service. *)
Record unique_timer := mk_unique_timer {
  parent : bool;
  timer_id : nat
}.

Definition get_unique_timer (s : timers2) : unique_timer * timers2 :=
  let i := first_inactive (timer_list s) 0%nat in
  let l := if (i =? length (timer_list s))%nat
           then timer_list s ++ [timer_impl_new] else timer_list s in
  ({| parent := true; timer_id := i |},
   with_timer_list (alter (set_active true) i l) s).

(** [unique_timer(unique_timer&& other)]: the new handle and [other] after
    the move. *)
Definition move_construct (other : unique_timer) : unique_timer * unique_timer :=
  ({| parent := parent other; timer_id := timer_id other |},
   {| parent := false; timer_id := timer_id other |}).

(** [operator=(unique_timer&& other)] for [this != &other]: [this] and
    [other] after the assignment.  The service is not touched. *)
Definition move_assign (this other : unique_timer) : unique_timer * unique_timer :=
  ({| parent := parent other; timer_id := timer_id other |},
   {| parent := false; timer_id := timer_id other |}).

(** [~unique_timer()] *)
Definition destroy (h : unique_timer) (s : timers2) : timers2 :=
  if parent h then impl_clear (timer_id h) s else s.

(** The methods of a handle go through [impl()], which dereferences
    [parent]: they are defined for a handle with [parent h = true]. *)
Definition handle_set_cb (h : unique_timer) (duration_ : Z)
    (callback_ : option callback_fn) (s : timers2) : timers2 :=
  impl_set_cb (timer_id h) duration_ callback_ s.

Definition handle_set (h : unique_timer) (duration_ : Z) (s : timers2) : timers2 :=
  impl_set (timer_id h) duration_ s.

Definition handle_run (h : unique_timer) (s : timers2) : timers2 :=
  impl_run (timer_id h) s.

Definition handle_stop (h : unique_timer) (s : timers2) : timers2 :=
  update_slot (timer_id h) (set_running false) s.

Definition handle_is_running (h : unique_timer) (s : timers2) : option bool :=
  is_running <$> timer_list s !! timer_id h.


(** Every entry of the queue names a slot of the vector. *)
Definition queue_ok (s : timers2) : Prop :=
  ∀ e, e ∈ pq_elements (running_timers s) →
       (run_timer_id e < length (timer_list s))%nat.

(** Slot [i] has no pending expiry. *)
Definition not_running (i : nat) (s : timers2) : Prop :=
  ∀ t, timer_list s !! i = Some t → is_running t = false.

(** Every slot with a pending expiry has a callback to call. *)
Definition callable (s : timers2) : Prop :=
  ∀ j t, timer_list s !! j = Some t → is_running t = true → is_Some (callback t).

(** Slot [i] is active and running with callback [f], it expires at [T0],
    and the entry that [run()] has pushed for it is in the queue. *)
Definition pending (i : nat) (f : callback_fn) (T0 : Z) (s : timers2) : Prop :=
  (∃ t, timer_list s !! i = Some t ∧ active t = true ∧ running t = true ∧
        timeout t = T0 ∧ callback t = Some f) ∧
  {| run_timer_id := i; run_timeout := T0 |} ∈ pq_elements (running_timers s).

(** The calls of the callback of slot [i] in a trace, oldest first. *)
Definition is_call_of (i : nat) (e : event) : bool :=
  match e with
  | called _ j => bool_decide (j = i)
  | _ => false
  end.

Definition calls_of (i : nat) (tr : list event) : list event :=
  List.filter (is_call_of i) tr.

End Service.

Arguments timers2 Q : clear implicits.

(** *** A client of the service

    The header fixes what each operation does, not the order in which a
    program calls them.  A program is any sequence of the calls below on one
    service and on the handle objects it has created so far; handle objects
    are numbered in the order of their creation.  The [const] methods
    ([is_running], [is_expired], [id], [get_cur_time]) change nothing and are
    not among the calls. *)
Inductive call :=
| call_get_unique_timer
    (* unique_timer h = t.get_unique_timer() *)
| call_move_construct (k : nat)
    (* unique_timer h(std::move(h_k)) *)
| call_move_assign (k k' : nat)
    (* h_k = std::move(h_k') *)
| call_destroy (k : nat)
    (* the lifetime of h_k ends *)
| call_set_cb (k : nat) (duration_ : Z) (callback_ : option callback_fn)
| call_set (k : nat) (duration_ : Z)
| call_run (k : nat)
| call_stop (k : nat)
| call_step_all
| call_stop_all
| call_construct (parent_ : bool) (timer_id_ : nat).
    (* unique_timer h(parent_, timer_id_): the public constructor, with the
       service ([true]) or a null pointer ([false]) as [parent_] *)

Section Client.
Context {Q : Type} `{PriorityQueue Q}.

(** The service and the handle objects: [Some h] is a handle object in its
    lifetime, [None] one that has been destroyed. *)
Record program := mk_program {
  service : timers2 Q;
  handles : list (option unique_timer)
}.

(** A handle object in its lifetime. *)
Definition live (p : program) (k : nat) : option unique_timer :=
  mjoin (handles p !! k).

(** A handle object in its lifetime whose [parent] is the service: the
    methods that go through [impl()] are defined for these only. *)
Definition owner (p : program) (k : nat) : option unique_timer :=
  h ← live p k; if parent h then Some h else None.

(** One call.  [None] is undefined behaviour: the use of a handle object
    outside its lifetime, or of [impl()] with a null [parent].  The use of a
    handle constructed on an id outside the vector is undefined as well; as
    everywhere in this file it leaves the vector as it is.  A [step_all()]
    that throws leaves the service in the state of the throw, and the program
    may go on from there. *)
Definition exec (c : call) (p : program) : option program :=
  match c with
  | call_get_unique_timer =>
      let '(h, s) := get_unique_timer (service p) in
      Some {| service := s; handles := handles p ++ [Some h] |}
  | call_move_construct k =>
      h ← live p k;
      let '(new, other) := move_construct h in
      Some {| service := service p;
              handles := <[k := Some other]> (handles p) ++ [Some new] |}
  | call_move_assign k k' =>
      this ← live p k;
      other ← live p k';
      if bool_decide (k = k') then Some p
      else
        let '(this1, other1) := move_assign this other in
        Some {| service := service p;
                handles := <[k' := Some other1]> (<[k := Some this1]> (handles p)) |}
  | call_destroy k =>
      h ← live p k;
      Some {| service := destroy h (service p);
              handles := <[k := None]> (handles p) |}
  | call_set_cb k duration_ callback_ =>
      h ← owner p k;
      Some {| service := handle_set_cb h duration_ callback_ (service p);
              handles := handles p |}
  | call_set k duration_ =>
      h ← owner p k;
      Some {| service := handle_set h duration_ (service p);
              handles := handles p |}
  | call_run k =>
      h ← owner p k;
      Some {| service := handle_run h (service p); handles := handles p |}
  | call_stop k =>
      h ← owner p k;
      Some {| service := handle_stop h (service p); handles := handles p |}
  | call_step_all =>
      Some {| service := (step_all (service p)).2; handles := handles p |}
  | call_stop_all =>
      Some {| service := stop_all (service p); handles := handles p |}
  | call_construct parent_ timer_id_ =>
      Some {| service := service p;
              handles := handles p ++
                         [Some {| parent := parent_; timer_id := timer_id_ |}] |}
  end.

(** Ownership is exclusive: every handle object in its lifetime whose
    [parent] is the service names an active slot of the service, and no other
    such handle object names the same slot. *)
Definition owned_ok (p : program) : Prop :=
  ∀ k h, live p k = Some h → parent h = true →
    (∃ t, timer_list (service p) !! timer_id h = Some t ∧ active t = true) ∧
    ∀ k' h', live p k' = Some h' → parent h' = true →
             timer_id h' = timer_id h → k' = k.

(** Slot [i] is active and no handle object in its lifetime owns it. *)
Definition leaked (i : nat) (p : program) : Prop :=
  (∃ t, timer_list (service p) !! i = Some t ∧ active t = true) ∧
  ∀ k h, live p k = Some h → parent h = true → timer_id h ≠ i.

Fixpoint exec_all (cs : list call) (p : program) : option program :=
  match cs with
  | [] => Some p
  | c :: cs' => p1 ← exec c p; exec_all cs' p1
  end.

Definition program_new : program :=
  {| service := timers2_new; handles := [] |}.

End Client.

Arguments program Q : clear implicits.

End HeapService.

(** * Properties *)

(** ** 32-bit unsigned arithmetic *)

Lemma wrap32_small z : 0 ≤ z ≤ UINT32_MAX → wrap32 z = z.
Proof. unfold wrap32, UINT32_MAX. intros ?. apply Z.mod_small. lia. Qed.


Lemma wrap32_succ_max : wrap32 (UINT32_MAX + 1) = 0.
Proof. reflexivity. Qed.

(** ** The fixed-pool registry *)

(** Decides the comparisons [<?], [<=?] and [=?] of a goal and leaves the
    arithmetic to [lia]. *)
Ltac Zcmp :=
  repeat match goal with
  | |- context [?a <? ?b] => destruct (Z.ltb_spec a b)
  | |- context [?a <=? ?b] => destruct (Z.leb_spec a b)
  | |- context [?a =? ?b] => destruct (Z.eqb_spec a b)
  end; simpl; try done; try lia.

Section FixedPoolFacts.
Import FixedPool.

(** While a running slot has not reached its timeout, [step()] only counts. *)
Lemma steps_counting (n : nat) (t : timer) :
  running t = true →
  0 ≤ counter t →
  counter t + Z.of_nat n < timeout t ≤ UINT32_MAX →
  steps n t =
    ({| id := id t; callback := callback t; timeout := timeout t;
        counter := counter t + Z.of_nat n; running := true |}, []).
Proof.
  revert t. induction n as [|n IH]; intros t Hrun Hc Hn.
  - simpl. destruct t; simpl in *. subst. do 2 f_equal. lia.
  - cbn [steps]. unfold step. rewrite Hrun.
    assert (Hw : wrap32 (counter t + 1) = counter t + 1)
      by (apply wrap32_small; lia).
    assert (Hne : is_expired (incr_counter t) = false).
    { unfold is_expired, incr_counter; simpl. rewrite Hw.
      apply andb_false_iff. right. apply Z.leb_gt. lia. }
    rewrite Hne, IH; unfold incr_counter; simpl; rewrite ?Hw; try done; try lia.
    do 2 f_equal. lia.
Qed.

(** The step on which the counter reaches the timeout fires. *)
Lemma step_reaching (t : timer) :
  running t = true →
  0 ≤ counter t →
  counter t + 1 = timeout t →
  timeout t ≤ UINT32_MAX →
  step t =
    ({| id := id t; callback := callback t; timeout := timeout t;
        counter := timeout t; running := false |},
     match callback t with Some cb => [timer_expired cb (id t)] | None => [] end).
Proof.
  intros Hrun Hc Hn Hmax. unfold step. rewrite Hrun.
  assert (Hw : wrap32 (counter t + 1) = timeout t)
    by (rewrite wrap32_small; lia).
  assert (He : is_expired (incr_counter t) = true).
  { unfold is_expired, incr_counter; simpl. rewrite Hw.
    apply andb_true_iff. split; [apply Z.ltb_lt | apply Z.leb_le]; lia. }
  rewrite He. unfold stop, incr_counter; simpl. rewrite Hw.
  by destruct (callback t).
Qed.

Lemma steps_snoc (n : nat) (t : timer) :
  steps (S n) t =
    let '(t1, tr1) := steps n t in
    let '(t2, tr2) := step t1 in (t2, tr1 ++ tr2).
Proof.
  revert t. induction n as [|n IH]; intros t.
  - simpl. destruct (step t) as [t1 tr1]. by rewrite app_nil_r.
  - change (steps (S (S n)) t)
      with (let '(t1, tr1) := step t in
            let '(t2, tr2) := steps (S n) t1 in (t2, tr1 ++ tr2)).
    cbn [steps]. destruct (step t) as [t1 tr1].
    specialize (IH t1). cbn [steps] in IH. rewrite IH.
    destruct (steps n t1) as [t2 tr2]. destruct (step t2) as [t3 tr3].
    by rewrite app_assoc.
Qed.

(** A slot armed with [set(callback, T)] and [run()], after exactly [T]
    steps. *)
Lemma steps_timeout (t : timer) (cb : option timer_callback) (T : Z) :
  1 ≤ T ≤ UINT32_MAX →
  steps (Z.to_nat T) (run (set cb T t)) =
    ({| id := id t; callback := cb; timeout := T; counter := T; running := false |},
     match cb with Some c => [timer_expired c (id t)] | None => [] end).
Proof.
  intros HT. replace (Z.to_nat T) with (S (Z.to_nat (T - 1))) by lia.
  rewrite steps_snoc, steps_counting; simpl; try done; try lia.
  rewrite step_reaching; simpl; try done; try lia.
Qed.

(** C1, as amended.  For every [T] from 1 to 2^32 - 1, a slot on which
    [set(callback, T)], with a callback that is not null, and [run()] were
    called is still running, not expired and has called nothing after exactly
    [T - 1] calls of [step()]; after the [T]-th call it has called its
    callback exactly once, with its id, and is no longer running. *)
Theorem fires_on_step_T (t : timer) (cb : timer_callback) (T : Z) :
  1 ≤ T ≤ UINT32_MAX →
  let armed := run (set (Some cb) T t) in
  let before := steps (Z.to_nat (T - 1)) armed in
  let after := steps (Z.to_nat T) armed in
  (is_running before.1 = true ∧ is_expired before.1 = false ∧ before.2 = []) ∧
  (after.2 = [timer_expired cb (id t)] ∧
   running after.1 = false ∧ is_running after.1 = false ∧
   is_expired after.1 = true).
Proof.
  intros HT armed before after. subst before after armed.
  rewrite steps_timeout by done.
  rewrite steps_counting; simpl; try done; try lia.
  unfold is_running, is_expired; simpl.
  split; [split; [|split] | split; [|split; [|split]]]; try done; Zcmp.
Qed.

Lemma fires_on_step_T_witness :
  1 ≤ 3 ≤ UINT32_MAX ∧
  (steps 2 (run (set (Some 7%nat) 3 (timer_new 5)))).2 = [] ∧
  (steps 3 (run (set (Some 7%nat) 3 (timer_new 5)))).2 = [timer_expired 7%nat 5].
Proof.
  assert (H : 1 ≤ 3 ≤ UINT32_MAX) by (unfold UINT32_MAX; lia).
  split; [exact H|].
  pose proof (fires_on_step_T (timer_new 5) 7%nat 3 H) as [(_ & _ & Hb) (Ha & _)].
  split; [exact Hb | exact Ha].
Defined.

(** C1, as the specification words it, fails already for [T = 1]: after
    exactly one call of [step()] the slot has called its callback, is expired
    and is not running. *)
Lemma still_running_after_T_steps_fails :
  let after := steps 1 (run (set (Some 7%nat) 1 (timer_new 0))) in
  ¬ (is_running after.1 = true ∧ is_expired after.1 = false) ∧
  after.2 = [timer_expired 7%nat 0].
Proof. split; [intros [H _]; vm_compute in H; discriminate | reflexivity]. Qed.

(** C4, as amended.  [set(callback, timeout)] assigns the callback and the
    timeout and resets the counter to 0; it leaves the id and the running flag
    as they were.  So a slot that was not running stays so until [run()], and
    a slot that was running goes on running, counting from 0 to the new
    timeout. *)
Theorem set_leaves_running (t : timer) (cb : option timer_callback) (T : Z) :
  callback (set cb T t) = cb ∧
  timeout (set cb T t) = T ∧
  counter (set cb T t) = 0 ∧
  id (set cb T t) = id t ∧
  running (set cb T t) = running t ∧
  is_running (set cb T t) = (0 <? T) && running t.
Proof. by repeat split. Qed.

(** C4, as the specification words it, fails: a running slot on which
    [set(callback, 1)] is called, and [run()] is not, is still running and
    calls its callback on the next [step()]. *)
Lemma set_does_not_cancel_run :
  let t := set (Some 7%nat) 1 (run (set (Some 7%nat) 5 (timer_new 0))) in
  running t = true ∧ is_running t = true ∧
  step t = ({| id := 0; callback := Some 7%nat; timeout := 1; counter := 1;
               running := false |}, [timer_expired 7%nat 0]).
Proof. by repeat split. Qed.

(** C8, as amended.  For every slot with [timeout > 0], a callback and
    [timeout <= counter < 2^32 - 1], [run()] alone makes the next [step()]
    increment the counter, call the callback again and clear [running]. *)
Theorem run_in_expired_state_fires_again (t : timer) (cb : timer_callback) :
  0 < timeout t →
  timeout t ≤ counter t < UINT32_MAX →
  callback t = Some cb →
  step (run t) =
    ({| id := id t; callback := Some cb; timeout := timeout t;
        counter := counter t + 1; running := false |},
     [timer_expired cb (id t)]).
Proof.
  intros HT Hc Hcb. unfold step, run, is_expired, stop, incr_counter; simpl.
  rewrite wrap32_small by lia. rewrite Hcb.
  by Zcmp.
Qed.

Lemma run_in_expired_state_fires_again_witness :
  let t := {| id := 4; callback := Some 7%nat; timeout := 3; counter := 3;
              running := false |} in
  is_expired t = true ∧
  step (run t) =
    ({| id := 4; callback := Some 7%nat; timeout := 3; counter := 4;
        running := false |}, [timer_expired 7%nat 4]).
Proof.
  split; [reflexivity|].
  apply (run_in_expired_state_fires_again
           {| id := 4; callback := Some 7%nat; timeout := 3; counter := 3;
              running := false |} 7%nat);
    simpl; unfold UINT32_MAX; (lia || reflexivity).
Defined.

(** C8, as the specification words it, fails where the counter has reached
    2^32 - 1: the slot armed with [set(callback, 2^32 - 1)] and [run()] has
    fired after 2^32 - 1 steps and is expired; after [run()] the next [step()]
    wraps the counter to 0, calls nothing and leaves the slot running. *)
Lemma run_at_counter_max_does_not_fire :
  let expired :=
    steps (Z.to_nat UINT32_MAX) (run (set (Some 7%nat) UINT32_MAX (timer_new 0))) in
  expired.2 = [timer_expired 7%nat 0] ∧
  is_expired expired.1 = true ∧
  step (run expired.1) =
    ({| id := 0; callback := Some 7%nat; timeout := UINT32_MAX; counter := 0;
        running := true |}, []).
Proof.
  intros expired. subst expired.
  rewrite steps_timeout by (unfold UINT32_MAX; lia).
  by repeat split.
Qed.

(** The guard of [release_id], read as a condition on the state. *)
Lemma release_id_error (i : Z) (s : timers) :
  (0 <? nof_used_timers s) && (i <? nof_timers s) = false →
  release_id i s = (s, [error_releasing i (nof_used_timers s) (nof_timers s)]).
Proof. intros H. unfold release_id. by rewrite H. Qed.

(** C5, as amended.  For every id [i], [release_id(i)] when the used-count is
    zero, or when [i] is not below the capacity, prints an error and leaves
    the registry, its bitmap and used-count included, as it was. *)
Theorem release_id_rejected (i : Z) (s : timers) :
  nof_used_timers s = 0 ∨ nof_timers s ≤ i →
  release_id i s = (s, [error_releasing i (nof_used_timers s) (nof_timers s)]).
Proof.
  intros H. apply release_id_error.
  destruct H as [H|H]; [rewrite H; reflexivity|].
  apply andb_false_iff. right. by apply Z.ltb_ge.
Qed.

Lemma release_id_rejected_witness :
  release_id 5 (timers_new 2) = (timers_new 2, [error_releasing 5 0 2]).
Proof. apply (release_id_rejected 5 (timers_new 2)). left. reflexivity. Defined.

(** C5, as the specification words it, fails for an id below the capacity
    that is not allocated while another one is: with capacity 2 and id 0
    allocated, [release_id(1)] prints nothing and takes the used-count from 1
    to 0, although the bitmap still has id 0 in use. *)
Lemma release_of_unallocated_id_decrements :
  let s := (get_unique_id (timers_new 2)).1.2 in
  used_timers s = [true; false] ∧ nof_used_timers s = 1 ∧
  (release_id 1 s).2 = [] ∧
  used_timers (release_id 1 s).1 = [true; false] ∧
  nof_used_timers (release_id 1 s).1 = 0 ∧
  (release_id 1 s).1 ≠ s.
Proof. by repeat split. Qed.

(** [get_unique_id()] on a registry with no id left. *)
Lemma get_unique_id_exhausted (s : timers) :
  nof_timers s ≤ nof_used_timers s →
  get_unique_id s = (0, s, [error_no_more_timers]).
Proof.
  intros H. unfold get_unique_id.
  by destruct (Z.leb_spec (nof_timers s) (nof_used_timers s)); [|lia].
Qed.

(** C6.  On a registry of capacity 4, four calls of [get_unique_id()] return
    0, 1, 2 and 3 without an error and mark each of them used; the fifth call
    prints the error of exhaustion, returns 0 and leaves the registry as it
    was, with a used-count of 4. *)
Theorem get_unique_id_capacity_4 :
  let '(i1, s1, e1) := get_unique_id (timers_new 4) in
  let '(i2, s2, e2) := get_unique_id s1 in
  let '(i3, s3, e3) := get_unique_id s2 in
  let '(i4, s4, e4) := get_unique_id s3 in
  let '(i5, s5, e5) := get_unique_id s4 in
  [i1; i2; i3; i4] = [0; 1; 2; 3] ∧
  e1 ++ e2 ++ e3 ++ e4 = [] ∧
  used_timers s1 = [true; false; false; false] ∧
  used_timers s2 = [true; true; false; false] ∧
  used_timers s3 = [true; true; true; false] ∧
  used_timers s4 = [true; true; true; true] ∧
  nof_used_timers s4 = 4 ∧
  i5 = 0 ∧ e5 = [error_no_more_timers] ∧
  s5 = s4 ∧ nof_used_timers s5 = 4.
Proof. by repeat split. Qed.

End FixedPoolFacts.

(** ** The priority queue of the heap-scheduled service *)

Section SortedQueue.
Import HeapService.

Lemma sorted_insert_perm (e : timer_run) (q : list timer_run) :
  sorted_insert e q ≡ₚ e :: q.
Proof.
  induction q as [|e' q IH]; simpl; [done|].
  destruct (run_timeout e <=? run_timeout e'); [done|].
  rewrite IH. apply perm_swap.
Qed.

Lemma sorted_of_perm (q : list timer_run) : sorted_of q ≡ₚ q.
Proof.
  induction q as [|e q IH]; simpl; [done|].
  by rewrite sorted_insert_perm, IH.
Qed.

Lemma sorted_insert_sorted (e : timer_run) (q : list timer_run) :
  StronglySorted timeout_le q → StronglySorted timeout_le (sorted_insert e q).
Proof.
  induction 1 as [|e' q Hq IH Hall]; simpl.
  - repeat constructor.
  - destruct (Z.leb_spec (run_timeout e) (run_timeout e')) as [Hle|Hgt].
    + constructor; [by constructor|].
      constructor; [done|].
      eapply Forall_impl; [exact Hall|].
      unfold timeout_le. intros; simpl in *. lia.
    + constructor; [done|].
      rewrite sorted_insert_perm. constructor; [|done].
      unfold timeout_le. lia.
Qed.

Lemma sorted_of_sorted (q : list timer_run) : StronglySorted timeout_le (sorted_of q).
Proof.
  induction q as [|e q IH]; simpl; [constructor|].
  by apply sorted_insert_sorted.
Qed.

(** The ordered list is a lawful priority queue. *)
#[export] Instance sorted_queue_laws : PriorityQueueLaws (list timer_run).
Proof.
  split; simpl.
  - done.
  - intros e q. by rewrite sorted_insert_perm, sorted_of_perm.
  - intros q. pose proof (sorted_of_perm q) as Hp.
    destruct (sorted_of q) as [|e l] eqn:Hs; simpl.
    + split; [intros _|done]. by apply Permutation_nil.
    + split; [done|]. intros ->. symmetry in Hp. by apply Permutation_nil_cons in Hp.
  - intros q e e' Htop Hin.
    pose proof (sorted_of_perm q) as Hp. pose proof (sorted_of_sorted q) as Hs.
    destruct (sorted_of q) as [|e0 l]; simplify_eq/=.
    rewrite <- Hp in Hin. apply elem_of_cons in Hin as [->|Hin]; [done|].
    apply StronglySorted_inv in Hs as [_ Hall].
    rewrite Forall_forall in Hall. by apply Hall.
  - intros q e Htop. pose proof (sorted_of_perm q) as Hp.
    destruct (sorted_of q) as [|e0 l]; simplify_eq/=. done.
Qed.

End SortedQueue.

(** ** The heap-scheduled service *)

Section HeapFacts.
Import HeapService.
Context {Q : Type} `{PriorityQueue Q}.
Implicit Types (s : timers2 Q) (t : timer_impl) (e : timer_run) (h : unique_timer).

(** *** Slots and handles *)

Lemma lookup_update_slot i f s :
  timer_list (update_slot i f s) !! i = f <$> timer_list s !! i.
Proof. apply list_lookup_alter_eq. Qed.

Lemma lookup_update_slot_ne i j f s :
  i ≠ j → timer_list (update_slot i f s) !! j = timer_list s !! j.
Proof. intros. by apply list_lookup_alter_ne. Qed.

(** C10.  [stop()] of a handle tests nothing: whatever the state of its slot,
    active or not, it sets [running = false] there, leaves the other fields,
    the other slots, the queue and the time as they are and prints nothing;
    [set()] and [run()] on an inactive slot print an error instead. *)
Theorem handle_stop_unconditional h s t :
  timer_list s !! timer_id h = Some t →
  timer_list (handle_stop h s) !! timer_id h =
    Some {| duration := duration t; timeout := timeout t; running := false;
            active := active t; callback := callback t |} ∧
  (∀ j, j ≠ timer_id h → timer_list (handle_stop h s) !! j = timer_list s !! j) ∧
  length (timer_list (handle_stop h s)) = length (timer_list s) ∧
  running_timers (handle_stop h s) = running_timers s ∧
  cur_time (handle_stop h s) = cur_time s ∧
  trace (handle_stop h s) = trace s ∧
  (active t = false →
   ∀ d, handle_set h d s = log (error_setting_inactive (timer_id h)) s ∧
        handle_run h s = log (error_run_inactive (timer_id h)) s).
Proof.
  intros Ht. unfold handle_stop. rewrite lookup_update_slot, Ht.
  split; [done|]. split; [|split; [|repeat split; try done]].
  - intros j Hj. by apply lookup_update_slot_ne.
  - apply length_alter.
  - unfold handle_set, impl_set. rewrite Ht.
    by match goal with Ha : active t = false |- _ => rewrite Ha end.
  - unfold handle_run, impl_run. rewrite Ht.
    by match goal with Ha : active t = false |- _ => rewrite Ha end.
Qed.

(** C7.  Destroying a handle that owns its slot clears the slot (duration 0,
    timeout 0, not running, not active, no callback) and calls nothing: the
    trace, the other slots, the queue and the time are as before.  After a
    move, by construction or by assignment, destroying the handle moved from
    changes nothing at all, and destroying the handle moved to does what
    destroying the original would have done. *)
Theorem destroy_and_move h s t :
  parent h = true →
  timer_list s !! timer_id h = Some t →
  (timer_list (destroy h s) !! timer_id h =
     Some {| duration := 0; timeout := 0; running := false; active := false;
             callback := None |} ∧
   (∀ j, j ≠ timer_id h → timer_list (destroy h s) !! j = timer_list s !! j) ∧
   running_timers (destroy h s) = running_timers s ∧
   cur_time (destroy h s) = cur_time s ∧
   trace (destroy h s) = trace s) ∧
  (destroy (move_construct h).2 s = s ∧
   destroy (move_construct h).1 s = destroy h s) ∧
  (∀ this, destroy (move_assign this h).2 s = s ∧
           destroy (move_assign this h).1 s = destroy h s).
Proof.
  intros Hp Ht. unfold destroy, move_construct, move_assign; simpl.
  rewrite Hp. unfold impl_clear. rewrite lookup_update_slot, Ht.
  repeat split; try done.
  intros j Hj. by apply lookup_update_slot_ne.
Qed.

(** *** The loop of [step_all()] *)

Lemma calls_of_app i (tr1 tr2 : list event) :
  calls_of i (tr1 ++ tr2) = calls_of i tr1 ++ calls_of i tr2.
Proof. apply List.filter_app. Qed.

Lemma calls_of_called i f : calls_of i [called f i] = [called f i].
Proof. unfold calls_of; simpl. by rewrite bool_decide_eq_true_2. Qed.

Lemma calls_of_called_ne i j f : j ≠ i → calls_of i [called f j] = [].
Proof. intros. unfold calls_of; simpl. by rewrite bool_decide_eq_false_2. Qed.

(** What [trigger_top] can do: nothing, because the slot has another timeout
    or no pending expiry; throw, because the slot has no callback; or call
    the callback and clear [running]. *)
Lemma trigger_top_cases e s :
  (trigger_top e s = (returned, s) ∧
   ∀ t, timer_list s !! run_timer_id e = Some t →
        timeout t = run_timeout e → is_running t = false) ∨
  (∃ t, timer_list s !! run_timer_id e = Some t ∧ timeout t = run_timeout e ∧
        is_running t = true ∧ callback t = None ∧
        trigger_top e s = (bad_function_call, s)) ∨
  (∃ t f, timer_list s !! run_timer_id e = Some t ∧ timeout t = run_timeout e ∧
          is_running t = true ∧ callback t = Some f ∧
          trigger_top e s =
            (returned, update_slot (run_timer_id e) (set_running false)
                         (log (called f (run_timer_id e)) s))).
Proof.
  unfold trigger_top, impl_trigger.
  destruct (timer_list s !! run_timer_id e) as [t|] eqn:Ht; [|left; by split].
  destruct (Z.eqb_spec (timeout t) (run_timeout e)) as [Hto|Hto].
  - destruct (is_running t) eqn:Hr.
    + destruct (callback t) as [f|] eqn:Hcb.
      * right; right. by exists t, f.
      * right; left. by exists t.
    + left. split; [done|]. by intros ? [= <-].
  - left. split; [done|]. by intros ? [= <-].
Qed.

Lemma step_all_loop_S n s :
  step_all_loop (S n) s =
    match pq_top (running_timers s) with
    | None => (returned, s)
    | Some top =>
        if run_timeout top <? cur_time s then
          match trigger_top top s with
          | (returned, s1) =>
              step_all_loop n (with_running_timers (pq_pop (running_timers s1)) s1)
          | (bad_function_call, s1) => (bad_function_call, s1)
          end
        else (returned, s)
    end.
Proof. reflexivity. Qed.

(** The loop changes neither the time nor the number of slots. *)
Lemma step_all_loop_frame n s :
  cur_time (step_all_loop n s).2 = cur_time s ∧
  length (timer_list (step_all_loop n s).2) = length (timer_list s).
Proof.
  revert s. induction n as [|n IH]; intros s; [done|].
  rewrite step_all_loop_S.
  destruct (pq_top (running_timers s)) as [e|]; [|done].
  destruct (run_timeout e <? cur_time s); [|done].
  destruct (trigger_top_cases e s)
    as [[-> _]|[(t & _ & _ & _ & _ & ->)|(t & f & _ & _ & _ & _ & ->)]];
    [|done|].
  - destruct (IH (with_running_timers (pq_pop (running_timers s)) s)) as [-> ->].
    done.
  - match goal with |- context [step_all_loop n ?s1] =>
      destruct (IH s1) as [-> ->] end.
    simpl. by rewrite length_alter.
Qed.

(** A slot with no pending expiry is not touched by the loop, and its
    callback is not called, however the loop ends. *)
Lemma step_all_loop_not_running i n s :
  not_running i s →
  timer_list (step_all_loop n s).2 !! i = timer_list s !! i ∧
  calls_of i (trace (step_all_loop n s).2) = calls_of i (trace s).
Proof.
  revert s. induction n as [|n IH]; intros s Hq; [done|].
  rewrite step_all_loop_S.
  destruct (pq_top (running_timers s)) as [e|]; [|done].
  destruct (run_timeout e <? cur_time s); [|done].
  destruct (trigger_top_cases e s)
    as [[-> _]|[(t & _ & _ & _ & _ & ->)|(t & f & Ht & _ & Hr & _ & ->)]];
    [|done|].
  - by apply (IH (with_running_timers (pq_pop (running_timers s)) s)).
  - assert (Hne : run_timer_id e ≠ i).
    { intros <-. specialize (Hq t Ht). congruence. }
    match goal with |- context [step_all_loop n ?s1] =>
      destruct (IH s1) as [-> ->] end.
    + intros t' Ht'. apply Hq. revert Ht'. simpl.
      by rewrite list_lookup_alter_ne.
    + simpl. rewrite list_lookup_alter_ne by done.
      rewrite calls_of_app, calls_of_called_ne by done.
      by rewrite app_nil_r.
Qed.

Lemma step_all_not_running i s :
  not_running i s →
  timer_list (step_all s).2 !! i = timer_list s !! i ∧
  calls_of i (trace (step_all s).2) = calls_of i (trace s).
Proof.
  intros Hq. unfold step_all.
  by apply (step_all_loop_not_running i _ (with_cur_time (wrap32 (cur_time s + 1)) s)).
Qed.

Lemma step_all_times_not_running i n s :
  not_running i s →
  timer_list (step_all_times n s).2 !! i = timer_list s !! i ∧
  calls_of i (trace (step_all_times n s).2) = calls_of i (trace s).
Proof.
  revert s. induction n as [|n IH]; intros s Hq; [done|].
  simpl. pose proof (step_all_not_running i s Hq) as [Hl Hc].
  destruct (step_all s) as [[] s1]; simpl in *; [|done].
  destruct (IH s1) as [-> ->]; [|done].
  intros t. rewrite Hl. apply Hq.
Qed.

(** The state after the callback of slot [j] was called. *)
Lemma callable_fired j f (q : Q) s :
  callable s →
  callable (with_running_timers q
              (update_slot j (set_running false) (log (called f j) s))).
Proof.
  intros Hc j' t'. simpl. destruct (decide (j = j')) as [<-|Hne].
  - rewrite list_lookup_alter_eq.
    destruct (timer_list s !! j) as [t|]; [|done].
    intros [= <-]. unfold is_running; simpl. by rewrite andb_false_r.
  - rewrite list_lookup_alter_ne by done. apply Hc.
Qed.

(** If every slot with a pending expiry has a callback, the loop returns. *)
Lemma step_all_loop_callable n s :
  callable s →
  (step_all_loop n s).1 = returned ∧ callable (step_all_loop n s).2.
Proof.
  revert s. induction n as [|n IH]; intros s Hc; [done|].
  rewrite step_all_loop_S.
  destruct (pq_top (running_timers s)) as [e|]; [|done].
  destruct (run_timeout e <? cur_time s); [|done].
  destruct (trigger_top_cases e s)
    as [[-> _]|[(t & Ht & _ & Hr & Hcb & _)|(t & f & _ & _ & _ & _ & ->)]].
  - by apply (IH (with_running_timers (pq_pop (running_timers s)) s)).
  - destruct (Hc _ _ Ht Hr) as [f Hf]. congruence.
  - apply IH. by apply callable_fired.
Qed.

Section Laws.
Context `{!PriorityQueueLaws Q}.

Lemma pq_size_pop (q : Q) e :
  pq_top q = Some e → pq_size q = S (pq_size (pq_pop q)).
Proof.
  intros Htop. unfold pq_size.
  by rewrite (Permutation_length (pq_elements_pop q e Htop)).
Qed.

Lemma pq_elements_pop_other (q : Q) e e' :
  pq_top q = Some e → e' ∈ pq_elements q → e' ≠ e → e' ∈ pq_elements (pq_pop q).
Proof.
  intros Htop Hin Hne. rewrite (pq_elements_pop q e Htop) in Hin.
  by apply elem_of_cons in Hin as [?|?].
Qed.

Lemma pq_elements_pop_subset (q : Q) e e' :
  pq_top q = Some e → e' ∈ pq_elements (pq_pop q) → e' ∈ pq_elements q.
Proof.
  intros Htop Hin. rewrite (pq_elements_pop q e Htop). by apply elem_of_cons; right.
Qed.

(** When the loop has run all its iterations and returned, every entry
    left in the queue has a timeout that the time has not passed: the loop
    has ended as the [while] of the source does. *)
Lemma step_all_loop_drained n s :
  (pq_size (running_timers s) ≤ n)%nat →
  (step_all_loop n s).1 = returned →
  ∀ e, e ∈ pq_elements (running_timers (step_all_loop n s).2) →
       cur_time s ≤ run_timeout e.
Proof.
  revert s. induction n as [|n IH]; intros s Hn.
  - intros _ e He. simpl in He. unfold pq_size in Hn.
    destruct (pq_elements (running_timers s)); simpl in Hn; [|lia].
    by apply elem_of_nil in He.
  - rewrite step_all_loop_S.
    destruct (pq_top (running_timers s)) as [e0|] eqn:Htop.
    2: { intros _ e He. simpl in He. apply pq_top_None in Htop.
         rewrite Htop in He. by apply elem_of_nil in He. }
    apply pq_size_pop in Htop as Hsz.
    destruct (Z.ltb_spec (run_timeout e0) (cur_time s)) as [Hlt|Hge].
    2: { intros _ e He. simpl in He.
         pose proof (pq_top_least _ _ _ Htop He). lia. }
    destruct (trigger_top_cases e0 s)
      as [[-> _]|[(t & _ & _ & _ & _ & ->)|(t & f & _ & _ & _ & _ & ->)]];
      [|done|].
    + apply (IH (with_running_timers (pq_pop (running_timers s)) s)).
      simpl. lia.
    + match goal with |- context [step_all_loop n ?s1] =>
        apply (IH s1) end.
      simpl. lia.
Qed.

Lemma step_all_drained s s' :
  step_all s = (returned, s') →
  ∀ e, e ∈ pq_elements (running_timers s') → cur_time s' ≤ run_timeout e.
Proof.
  unfold step_all. intros Hs e He.
  set (s1 := with_cur_time (wrap32 (cur_time s + 1)) s) in *.
  pose proof (step_all_loop_drained _ s1 (le_n _)) as Hd.
  pose proof (step_all_loop_frame (pq_size (running_timers s1)) s1) as [Hc _].
  rewrite Hs in Hd, Hc. simpl in Hd, Hc. rewrite Hc. by apply Hd.
Qed.

Lemma step_all_times_drained n s s' :
  (0 < n)%nat →
  step_all_times n s = (returned, s') →
  ∀ e, e ∈ pq_elements (running_timers s') → cur_time s' ≤ run_timeout e.
Proof.
  revert s. induction n as [|n IH]; intros s Hn; [lia|].
  simpl. destruct (step_all s) as [[] s1] eqn:Hs; [|done].
  destruct n as [|n].
  - simpl. intros [= <-]. by apply (step_all_drained s).
  - apply IH. lia.
Qed.

(** *** A pending expiry *)

(** The entry of a pending slot stays in the queue when another entry is
    popped and another slot fires. *)
Lemma pending_pop_skip i f T0 s e :
  pq_top (running_timers s) = Some e →
  e ≠ {| run_timer_id := i; run_timeout := T0 |} →
  pending i f T0 s →
  pending i f T0 (with_running_timers (pq_pop (running_timers s)) s).
Proof.
  intros Htop Hne [Ht Hin]. split; [done|]. simpl.
  by apply (pq_elements_pop_other _ e).
Qed.

Lemma pending_pop_fired i f T0 s e g :
  pq_top (running_timers s) = Some e →
  run_timer_id e ≠ i →
  pending i f T0 s →
  pending i f T0
    (with_running_timers (pq_pop (running_timers s))
       (update_slot (run_timer_id e) (set_running false)
          (log (called g (run_timer_id e)) s))).
Proof.
  intros Htop Hne [Ht Hin]. split; simpl.
  - by rewrite list_lookup_alter_ne.
  - apply (pq_elements_pop_other _ e); [done..|]. intros <-. by apply Hne.
Qed.

(** While the time has not passed [T0], the loop returns and the pending
    slot stays pending and is not called. *)
Lemma step_all_loop_before_expiry i f T0 n s :
  callable s →
  pending i f T0 s →
  cur_time s ≤ T0 →
  (step_all_loop n s).1 = returned ∧
  callable (step_all_loop n s).2 ∧
  pending i f T0 (step_all_loop n s).2 ∧
  calls_of i (trace (step_all_loop n s).2) = calls_of i (trace s).
Proof.
  revert s. induction n as [|n IH]; intros s Hc Hp Hle; [done|].
  rewrite step_all_loop_S.
  destruct (pq_top (running_timers s)) as [e|] eqn:Htop; [|done].
  destruct (Z.ltb_spec (run_timeout e) (cur_time s)) as [Hlt|Hge]; [|done].
  assert (Hne : e ≠ {| run_timer_id := i; run_timeout := T0 |}).
  { intros ->. simpl in Hlt. lia. }
  destruct (trigger_top_cases e s)
    as [[-> _]|[(t & Ht & _ & Hr & Hcb & _)|(t & g & Ht & Hto & _ & _ & ->)]].
  - apply (IH (with_running_timers (pq_pop (running_timers s)) s)); try done.
    by apply (pending_pop_skip _ _ _ _ e).
  - destruct (Hc _ _ Ht Hr) as [g Hg]. congruence.
  - assert (Hid : run_timer_id e ≠ i).
    { intros Hid. destruct Hp as [(t' & Ht' & _ & _ & Hto' & _) _].
      rewrite Hid in Ht. simplify_eq. lia. }
    match goal with |- context [step_all_loop n ?s1] =>
      destruct (IH s1) as (-> & ? & ? & ->) end; try done.
    + by apply callable_fired.
    + by apply (pending_pop_fired i f T0 s e g).
    + simpl. rewrite calls_of_app, calls_of_called_ne by done.
      by rewrite app_nil_r.
Qed.

(** Once the time has passed [T0], the loop returns, the pending slot is
    called exactly once and has no pending expiry afterwards. *)
Lemma step_all_loop_at_expiry i f T0 n s :
  callable s →
  pending i f T0 s →
  0 < T0 < cur_time s →
  (pq_size (running_timers s) ≤ n)%nat →
  (step_all_loop n s).1 = returned ∧
  callable (step_all_loop n s).2 ∧
  not_running i (step_all_loop n s).2 ∧
  calls_of i (trace (step_all_loop n s).2) = calls_of i (trace s) ++ [called f i].
Proof.
  revert s. induction n as [|n IH]; intros s Hc Hp HT Hn.
  { destruct Hp as [_ Hin]. unfold pq_size in Hn.
    destruct (pq_elements (running_timers s)); simpl in Hn; [|lia].
    by apply elem_of_nil in Hin. }
  rewrite step_all_loop_S.
  destruct (pq_top (running_timers s)) as [e|] eqn:Htop.
  2: { destruct Hp as [_ Hin]. apply pq_top_None in Htop.
       rewrite Htop in Hin. by apply elem_of_nil in Hin. }
  apply pq_size_pop in Htop as Hsz.
  assert (Hlt : run_timeout e < cur_time s).
  { destruct Hp as [_ Hin]. pose proof (pq_top_least _ _ _ Htop Hin).
    simpl in *. lia. }
  destruct (Z.ltb_spec (run_timeout e) (cur_time s)); [|lia].
  destruct Hp as [(t0 & Ht0 & Hact & Hrun & Hto0 & Hcb0) Hin].
  assert (Hr0 : is_running t0 = true).
  { unfold is_running. rewrite Hact, Hrun. simpl. apply Z.ltb_lt. lia. }
  destruct (trigger_top_cases e s)
    as [[-> Hskip]|[(t & Ht & _ & Hr & Hcb & _)|(t & g & Ht & Hto & _ & Hg & ->)]].
  - apply (IH (with_running_timers (pq_pop (running_timers s)) s));
      try done; [|simpl; lia].
    apply (pending_pop_skip _ _ _ _ e); [done| |by split; [exists t0|]].
    intros ->. simpl in Hskip. specialize (Hskip t0 Ht0 Hto0). congruence.
  - destruct (Hc _ _ Ht Hr) as [g Hg]. congruence.
  - destruct (decide (run_timer_id e = i)) as [Hid|Hid].
    + subst i. rewrite Ht0 in Ht. injection Ht as <-.
      rewrite Hcb0 in Hg. injection Hg as <-.
      match goal with |- context [step_all_loop n ?s1] => set (s1' := s1) end.
      assert (Hc1 : callable s1') by by apply callable_fired.
      assert (Hq1 : not_running (run_timer_id e) s1').
      { intros t'. simpl. rewrite list_lookup_alter_eq, Ht0.
        intros [= <-]. unfold is_running; simpl. by rewrite andb_false_r. }
      destruct (step_all_loop_callable n s1' Hc1) as [-> ?].
      destruct (step_all_loop_not_running _ n s1' Hq1) as [Hl ->].
      split; [done|]. split; [done|]. split.
      * intros t'. rewrite Hl. apply Hq1.
      * subst s1'. simpl. by rewrite calls_of_app, calls_of_called.
    + match goal with |- context [step_all_loop n ?s1] =>
        destruct (IH s1) as (-> & ? & ? & ->) end; try done.
      * by apply callable_fired.
      * apply (pending_pop_fired i f T0 s e g); [done..|]. by split; [exists t0|].
      * simpl. lia.
      * simpl. rewrite calls_of_app, calls_of_called_ne by done.
        by rewrite app_nil_r.
Qed.

Lemma step_all_before_expiry i f T0 s :
  callable s →
  pending i f T0 s →
  0 ≤ cur_time s →
  cur_time s + 1 ≤ T0 ≤ UINT32_MAX →
  ∃ s', step_all s = (returned, s') ∧ callable s' ∧ pending i f T0 s' ∧
        calls_of i (trace s') = calls_of i (trace s) ∧
        cur_time s' = cur_time s + 1.
Proof.
  intros Hc Hp H0 HT. unfold step_all.
  rewrite wrap32_small by lia.
  set (s1 := with_cur_time (cur_time s + 1) s).
  pose proof (step_all_loop_before_expiry i f T0 (pq_size (running_timers s1)) s1)
    as Hloop.
  pose proof (step_all_loop_frame (pq_size (running_timers s1)) s1) as [Hct _].
  destruct (step_all_loop _ s1) as [st s'].
  destruct Hloop as (Hst & ? & ? & ?); [done|done|simpl; lia|].
  simpl in *. subst st. by exists s'.
Qed.

Lemma step_all_times_before_expiry i f T0 (k : nat) s :
  callable s →
  pending i f T0 s →
  0 ≤ cur_time s →
  cur_time s + Z.of_nat k ≤ T0 ≤ UINT32_MAX →
  ∃ s', step_all_times k s = (returned, s') ∧ callable s' ∧ pending i f T0 s' ∧
        calls_of i (trace s') = calls_of i (trace s) ∧
        cur_time s' = cur_time s + Z.of_nat k.
Proof.
  revert s. induction k as [|k IH]; intros s Hc Hp H0 HT.
  - exists s. do 4 (split; [done|]). simpl. lia.
  - destruct (step_all_before_expiry i f T0 s) as (s1 & Hs1 & ? & ? & Hcalls & Hct);
      [done|done|done|lia|].
    destruct (IH s1) as (s' & Hs' & ? & ? & Hcalls' & Hct'); [done|done|lia|lia|].
    exists s'. simpl. rewrite Hs1, Hs', Hcalls', Hcalls, Hct', Hct.
    do 4 (split; [done|]). lia.
Qed.

Lemma step_all_at_expiry i f T0 s :
  callable s →
  pending i f T0 s →
  cur_time s = T0 →
  0 < T0 < UINT32_MAX →
  ∃ s', step_all s = (returned, s') ∧ callable s' ∧ not_running i s' ∧
        calls_of i (trace s') = calls_of i (trace s) ++ [called f i] ∧
        cur_time s' = T0 + 1.
Proof.
  intros Hc Hp H0 HT. unfold step_all.
  rewrite wrap32_small by lia.
  set (s1 := with_cur_time (cur_time s + 1) s).
  pose proof (step_all_loop_at_expiry i f T0 (pq_size (running_timers s1)) s1)
    as Hloop.
  pose proof (step_all_loop_frame (pq_size (running_timers s1)) s1) as [Hct _].
  destruct (step_all_loop _ s1) as [st s'].
  destruct Hloop as (Hst & ? & ? & ?); [done|done|simpl; lia|done|].
  simpl in *. subst st. exists s'. do 4 (split; [done|]). lia.
Qed.

(** [set(duration)] and [run()] on an active slot with a callback. *)
Lemma set_run_pending h s t f D :
  timer_list s !! timer_id h = Some t →
  active t = true →
  callback t = Some f →
  let armed := handle_run h (handle_set h D s) in
  pending (timer_id h) f (wrap32 (cur_time s + D)) armed ∧
  (callable s → callable armed) ∧
  trace armed = trace s ∧
  cur_time armed = cur_time s.
Proof.
  intros Ht Hact Hcb armed. subst armed.
  unfold handle_set, impl_set. rewrite Ht, Hact. simpl.
  unfold handle_run, impl_run. rewrite lookup_update_slot, Ht. simpl.
  rewrite Hact. simpl.
  split; [split|split; [|done]].
  - exists (run_slot (wrap32 (cur_time s + D)) (set_slot D t)). simpl.
    by rewrite !list_lookup_alter_eq, Ht.
  - simpl. rewrite pq_elements_emplace. by apply elem_of_cons; left.
  - intros Hc j t'. simpl. destruct (decide (timer_id h = j)) as [<-|Hne].
    + rewrite !list_lookup_alter_eq, Ht. simpl. intros [= <-] _. simpl. by eexists.
    + rewrite !list_lookup_alter_ne by done. apply Hc.
Qed.

(** C2, as amended.  Let a handle own an active slot with a callback, in a
    service at [cur_time = T] where every running slot has a callback, and let
    [D] be such that [0 < T + D < 2^32 - 1].  After [set(D)] and [run()],
    exactly [D] calls of [step_all()] return with [cur_time = T + D] and
    without a call of the slot's callback, and the next call of [step_all()]
    returns with [cur_time = T + D + 1] and has called it exactly once. *)
Theorem fires_on_step_after_duration h s t f D :
  timer_list s !! timer_id h = Some t →
  active t = true →
  callback t = Some f →
  callable s →
  0 ≤ D →
  0 ≤ cur_time s →
  0 < cur_time s + D < UINT32_MAX →
  let armed := handle_run h (handle_set h D s) in
  ∃ s1 s2,
    step_all_times (Z.to_nat D) armed = (returned, s1) ∧
    cur_time s1 = cur_time s + D ∧
    calls_of (timer_id h) (trace s1) = calls_of (timer_id h) (trace s) ∧
    step_all s1 = (returned, s2) ∧
    cur_time s2 = cur_time s + D + 1 ∧
    calls_of (timer_id h) (trace s2) =
      calls_of (timer_id h) (trace s1) ++ [called f (timer_id h)].
Proof.
  intros Ht Hact Hcb Hc HD HT Hsum armed.
  destruct (set_run_pending h s t f D Ht Hact Hcb) as (Hp & Hca & Htr & Hct).
  fold armed in Hp, Hca, Htr, Hct.
  rewrite wrap32_small in Hp by lia.
  destruct (step_all_times_before_expiry (timer_id h) f (cur_time s + D)
              (Z.to_nat D) armed)
    as (s1 & Hs1 & Hc1 & Hp1 & Hcalls1 & Hct1); [by apply Hca|done|lia|lia|].
  destruct (step_all_at_expiry (timer_id h) f (cur_time s + D) s1)
    as (s2 & Hs2 & _ & _ & Hcalls2 & Hct2); [done|done|lia|lia|].
  exists s1, s2. rewrite Hcalls2, Hcalls1, Htr.
  do 5 (split; [done || lia|]). done.
Qed.

(** *** Cancelling a pending expiry *)

Lemma calls_of_log_error i (tr : list event) (e : event) :
  is_call_of i e = false → calls_of i (tr ++ [e]) = calls_of i tr.
Proof.
  intros He. rewrite calls_of_app. unfold calls_of at 2; simpl.
  rewrite He. apply app_nil_r.
Qed.

Lemma handle_stop_not_running h s :
  not_running (timer_id h) (handle_stop h s) ∧
  trace (handle_stop h s) = trace s.
Proof.
  split; [|done]. intros t. unfold handle_stop. rewrite lookup_update_slot.
  destruct (timer_list s !! timer_id h) as [t0|]; [|done].
  intros [= <-]. unfold is_running; simpl. by rewrite andb_false_r.
Qed.

Lemma handle_set_not_running h d s :
  not_running (timer_id h) (handle_set h d s) ∧
  calls_of (timer_id h) (trace (handle_set h d s)) = calls_of (timer_id h) (trace s).
Proof.
  unfold handle_set, impl_set.
  destruct (timer_list s !! timer_id h) as [t0|] eqn:Ht0.
  2: { split; [|done]. intros t. by rewrite Ht0. }
  destruct (active t0) eqn:Hact; simpl.
  - split; [|done]. intros t. rewrite lookup_update_slot, Ht0.
    intros [= <-]. unfold is_running; simpl. by rewrite andb_false_r.
  - split; [|by apply calls_of_log_error].
    intros t. simpl. rewrite Ht0. intros [= <-].
    unfold is_running. by rewrite Hact.
Qed.

Lemma handle_set_cb_not_running h d cb s :
  not_running (timer_id h) (handle_set_cb h d cb s) ∧
  calls_of (timer_id h) (trace (handle_set_cb h d cb s)) =
    calls_of (timer_id h) (trace s).
Proof.
  unfold handle_set_cb, impl_set_cb.
  destruct (timer_list s !! timer_id h) as [t0|] eqn:Ht0.
  2: { split; [|done]. intros t. by rewrite Ht0. }
  destruct (active t0) eqn:Hact; simpl.
  - split; [|done]. intros t. rewrite lookup_update_slot, Ht0.
    intros [= <-]. unfold is_running; simpl. by rewrite andb_false_r.
  - split; [|by apply calls_of_log_error].
    intros t. simpl. rewrite Ht0. intros [= <-].
    unfold is_running. by rewrite Hact.
Qed.

(** C3.  Let [s0] be the service just after [stop()], [set(d)] or
    [set(d, callback)] on a handle, whatever was pending for its slot.  Then
    after any number [n] of calls of [step_all()], however they end, the
    callback of the slot has not been called and the slot is as the cancelling
    call left it; and when [n > 0] calls have returned, no entry with a
    timeout below the current time is left in the queue: the stale entry was
    popped, and nothing was called for it. *)
Theorem cancelled_never_fires h s s0 (n : nat) :
  s0 = handle_stop h s ∨
  (∃ d, s0 = handle_set h d s) ∨
  (∃ d cb, s0 = handle_set_cb h d cb s) →
  calls_of (timer_id h) (trace (step_all_times n s0).2) =
    calls_of (timer_id h) (trace s) ∧
  timer_list (step_all_times n s0).2 !! timer_id h = timer_list s0 !! timer_id h ∧
  ((step_all_times n s0).1 = returned → (0 < n)%nat →
   ∀ e, run_timeout e < cur_time (step_all_times n s0).2 →
        e ∉ pq_elements (running_timers (step_all_times n s0).2)).
Proof.
  intros Hs0.
  assert (Hq : not_running (timer_id h) s0 ∧
               calls_of (timer_id h) (trace s0) = calls_of (timer_id h) (trace s)).
  { destruct Hs0 as [->|[[d ->]|(d & cb & ->)]].
    - destruct (handle_stop_not_running h s) as [? ->]. by split.
    - apply handle_set_not_running.
    - apply handle_set_cb_not_running. }
  destruct Hq as [Hq Hcalls].
  destruct (step_all_times_not_running _ n s0 Hq) as [Hl Hc].
  rewrite Hc, Hcalls. split; [done|]. split; [done|].
  intros Hret Hn e Hlt Hin.
  destruct (step_all_times n s0) as [st s2] eqn:Hs2. simpl in *. subst st.
  pose proof (step_all_times_drained n s0 s2 Hn Hs2 e Hin). lia.
Qed.

End Laws.

End HeapFacts.

(** ** Clients of the heap-scheduled service *)

Section ClientFacts.
Import HeapService.
Context {Q : Type} `{PriorityQueue Q}.
Implicit Types (s : timers2 Q) (t : timer_impl) (h : unique_timer) (p : program Q).

Lemma first_inactive_ge (l : list timer_impl) (i0 : nat) :
  (i0 ≤ first_inactive l i0)%nat.
Proof.
  revert i0. induction l as [|t l IH]; intros i0; simpl; [lia|].
  destruct (negb (active t)); [lia|]. specialize (IH (S i0)). lia.
Qed.

(** The scan does not stop at an active slot. *)
Lemma first_inactive_active (l : list timer_impl) (i0 i : nat) t :
  l !! i = Some t → active t = true → first_inactive l i0 ≠ (i0 + i)%nat.
Proof.
  revert i0 i. induction l as [|t0 l IH]; intros i0 i Hl Hact; [done|].
  simpl. destruct i as [|i]; simpl in Hl.
  - injection Hl as ->. rewrite Hact. simpl.
    pose proof (first_inactive_ge l (S i0)). lia.
  - destruct (negb (active t0)); [lia|].
    specialize (IH (S i0) i Hl Hact). lia.
Qed.

(** [get_unique_timer()] does not return an active slot and does not change
    the slots that exist. *)
Lemma get_unique_timer_active i s t :
  timer_list s !! i = Some t →
  active t = true →
  timer_id (get_unique_timer s).1 ≠ i ∧
  timer_list (get_unique_timer s).2 !! i = Some t.
Proof.
  intros Ht Hact. unfold get_unique_timer; simpl.
  pose proof (first_inactive_active (timer_list s) 0 i t Ht Hact) as Hne.
  simpl in Hne. split; [done|].
  rewrite list_lookup_alter_ne by done.
  destruct (_ =? _)%nat; [|done].
  rewrite lookup_app_l; [done|]. by eapply lookup_lt_Some.
Qed.

Lemma impl_set_other i j d s :
  j ≠ i → timer_list (impl_set j d s) !! i = timer_list s !! i.
Proof.
  intros Hne. unfold impl_set.
  destruct (timer_list s !! j) as [t|]; [|done].
  destruct (negb (active t)); [done|]. by apply lookup_update_slot_ne.
Qed.

Lemma impl_set_cb_other i j d cb s :
  j ≠ i → timer_list (impl_set_cb j d cb s) !! i = timer_list s !! i.
Proof.
  intros Hne. unfold impl_set_cb.
  destruct (timer_list s !! j) as [t|]; [|done].
  destruct (negb (active t)); [done|]. by apply lookup_update_slot_ne.
Qed.

Lemma impl_run_other i j s :
  j ≠ i → timer_list (impl_run j s) !! i = timer_list s !! i.
Proof.
  intros Hne. unfold impl_run.
  destruct (timer_list s !! j) as [t|]; [|done].
  destruct (negb (active t)); [done|]. simpl. by apply list_lookup_alter_ne.
Qed.

(** The loop of [step_all()] leaves [active] as it is in every slot. *)
Lemma step_all_loop_active i n s t :
  timer_list s !! i = Some t →
  ∃ t', timer_list (step_all_loop n s).2 !! i = Some t' ∧ active t' = active t.
Proof.
  revert s t. induction n as [|n IH]; intros s t Ht; [by exists t|].
  rewrite step_all_loop_S.
  destruct (pq_top (running_timers s)) as [e|]; [|by exists t].
  destruct (run_timeout e <? cur_time s); [|by exists t].
  destruct (trigger_top_cases e s)
    as [[-> _]|[(t0 & _ & _ & _ & _ & ->)|(t0 & f & _ & _ & _ & _ & ->)]];
    [|by exists t|].
  - by apply (IH (with_running_timers (pq_pop (running_timers s)) s)).
  - destruct (decide (run_timer_id e = i)) as [Hid|Hid].
    + match goal with |- context [step_all_loop n ?s1] =>
        destruct (IH s1 (set_running false t)) as (t' & ? & ?) end.
      { simpl. by rewrite Hid, list_lookup_alter_eq, Ht. }
      by exists t'.
    + match goal with |- context [step_all_loop n ?s1] =>
        destruct (IH s1 t) as (t' & ? & ?) end.
      { simpl. by rewrite list_lookup_alter_ne. }
      by exists t'.
Qed.

Lemma step_all_active i s t :
  timer_list s !! i = Some t →
  ∃ t', timer_list (step_all s).2 !! i = Some t' ∧ active t' = active t.
Proof.
  intros Ht. unfold step_all.
  by apply (step_all_loop_active i _ (with_cur_time (wrap32 (cur_time s + 1)) s)).
Qed.

Lemma stop_all_active i s t :
  timer_list s !! i = Some t →
  ∃ t', timer_list (stop_all s) !! i = Some t' ∧ active t' = active t.
Proof.
  intros Ht. exists (set_running false t). unfold stop_all; simpl.
  by rewrite list_lookup_fmap, Ht.
Qed.

Lemma owner_live p k h : owner p k = Some h → live p k = Some h ∧ parent h = true.
Proof.
  unfold owner. destruct (live p k) as [h'|]; simpl; [|done].
  destruct (parent h') eqn:Hp; [|done]. by intros [= <-].
Qed.

(** A leaked slot stays leaked whatever the program calls next, unless it
    constructs a handle on the slot. *)
Lemma exec_leaked i c p p' :
  c ≠ call_construct true i →
  leaked i p → exec c p = Some p' → leaked i p'.
Proof.
  intros Hc [(t & Ht & Hact) Hown] Hex.
  destruct c as [|k|k k'|k|k d cb|k d|k|k| | |b j]; unfold exec in Hex.
  - (* get_unique_timer *)
    destruct (get_unique_timer_active i (service p) t Ht Hact) as [Hid Hl].
    destruct (get_unique_timer (service p)) as [h s1].
    injection Hex as <-. simpl in Hid, Hl.
    split; [by exists t|]. intros k h'. unfold live; simpl.
    destruct (decide (k < length (handles p))%nat) as [Hlt|Hge].
    + rewrite lookup_app_l by done. apply Hown.
    + rewrite lookup_app_r by lia.
      destruct (k - length (handles p))%nat as [|m]; simpl; [|by destruct m].
      by intros [= <-] _.
  - (* move construction *)
    destruct (live p k) as [h|] eqn:Hk; simplify_eq/=.
    split; [by exists t|]. intros j h'. unfold live; simpl.
    destruct (decide (j < length (handles p))%nat) as [Hlt|Hge].
    + rewrite lookup_app_l by (by rewrite length_insert).
      destruct (decide (k = j)) as [<-|Hne].
      * rewrite list_lookup_insert_eq by done. simpl. by intros [= <-].
      * rewrite list_lookup_insert_ne by done. apply Hown.
    + rewrite lookup_app_r by (rewrite length_insert; lia).
      rewrite length_insert.
      destruct (j - length (handles p))%nat as [|m]; simpl; [|by destruct m].
      intros [= <-]; simpl. by apply (Hown k h).
  - (* move assignment *)
    destruct (live p k) as [this|] eqn:Hk; simplify_eq/=.
    destruct (live p k') as [other|] eqn:Hk'; simplify_eq/=.
    case_bool_decide; simplify_eq/=; [by split; [exists t|]|].
    split; [by exists t|]. intros j h'. unfold live; simpl.
    assert (Hlen : (k < length (handles p))%nat).
    { unfold live in Hk. destruct (handles p !! k) eqn:E; [|done].
      by eapply lookup_lt_Some. }
    assert (Hlen' : (k' < length (handles p))%nat).
    { unfold live in Hk'. destruct (handles p !! k') eqn:E; [|done].
      by eapply lookup_lt_Some. }
    destruct (decide (k' = j)) as [<-|Hne'].
    + rewrite list_lookup_insert_eq by (by rewrite length_insert).
      simpl. by intros [= <-].
    + rewrite list_lookup_insert_ne by done.
      destruct (decide (k = j)) as [<-|Hne].
      * rewrite list_lookup_insert_eq by done. simpl.
        intros [= <-]; simpl. by apply (Hown k' other).
      * rewrite list_lookup_insert_ne by done. apply Hown.
  - (* destruction *)
    destruct (live p k) as [h|] eqn:Hk; simplify_eq/=.
    split.
    + exists t. split; [|done]. unfold destroy, impl_clear, update_slot.
      destruct (parent h) eqn:Hp; simpl; [|done].
      rewrite list_lookup_alter_ne; [done|]. by apply (Hown k h).
    + intros j h'. unfold live; simpl.
      destruct (decide (k = j)) as [<-|Hne].
      * destruct (decide (k < length (handles p))%nat).
        -- by rewrite list_lookup_insert_eq.
        -- rewrite list_insert_ge by lia. apply Hown.
      * rewrite list_lookup_insert_ne by done. apply Hown.
  - (* set with a callback *)
    destruct (owner p k) as [h|] eqn:Hk; simplify_eq/=.
    apply owner_live in Hk as [Hk Hp].
    split; [|done]. exists t. split; [|done]. simpl.
    unfold handle_set_cb. rewrite impl_set_cb_other; [done|]. by apply (Hown k h).
  - (* set *)
    destruct (owner p k) as [h|] eqn:Hk; simplify_eq/=.
    apply owner_live in Hk as [Hk Hp].
    split; [|done]. exists t. split; [|done]. simpl.
    unfold handle_set. rewrite impl_set_other; [done|]. by apply (Hown k h).
  - (* run *)
    destruct (owner p k) as [h|] eqn:Hk; simplify_eq/=.
    apply owner_live in Hk as [Hk Hp].
    split; [|done]. exists t. split; [|done]. simpl.
    unfold handle_run. rewrite impl_run_other; [done|]. by apply (Hown k h).
  - (* stop *)
    destruct (owner p k) as [h|] eqn:Hk; simplify_eq/=.
    apply owner_live in Hk as [Hk Hp].
    split; [|done]. exists t. split; [|done]. simpl.
    unfold handle_stop, update_slot; simpl.
    rewrite list_lookup_alter_ne; [done|]. by apply (Hown k h).
  - (* step_all *)
    simplify_eq/=. split; [|done].
    destruct (step_all_active i (service p) t Ht) as (t' & ? & ?).
    exists t'. split; [done|congruence].
  - (* stop_all *)
    simplify_eq/=. split; [|done].
    destruct (stop_all_active i (service p) t Ht) as (t' & ? & ?).
    exists t'. split; [done|congruence].
  - (* construction *)
    injection Hex as <-. split; [by exists t|].
    intros k h. unfold live; simpl.
    destruct (decide (k < length (handles p))%nat) as [Hlt|Hge].
    + rewrite lookup_app_l by done. apply Hown.
    + rewrite lookup_app_r by lia.
      destruct (k - length (handles p))%nat as [|m]; simpl; [|by destruct m].
      intros [= <-]; simpl. intros -> ->. by apply Hc.
Qed.

Lemma exec_all_leaked i cs p p' :
  Forall (λ c, c ≠ call_construct true i) cs →
  leaked i p → exec_all cs p = Some p' → leaked i p'.
Proof.
  intros Hcs. revert p. induction Hcs as [|c cs Hc Hcs IH]; intros p Hl; simpl.
  - by intros [= <-].
  - destruct (exec c p) as [p1|] eqn:Hex; simpl; [|done].
    apply IH. by apply (exec_leaked i c p).
Qed.

(** C9, as amended.  Let the handle object [this] own an active slot,
    alone, and let [other] be another handle object.  [this = std::move(other)]
    leaves the service as it is, so the slot keeps [active = true] and all its
    fields, and afterwards no handle object owns the slot.  Whatever the
    program calls from then on, as long as it does not construct a handle on
    the slot with the public constructor [unique_timer(parent, id)], the slot
    stays active and [get_unique_timer()] does not return it. *)
Theorem move_assign_leaks_slot p (k k' : nat) (this other : unique_timer) t :
  live p k = Some this →
  parent this = true →
  live p k' = Some other →
  k ≠ k' →
  timer_list (service p) !! timer_id this = Some t →
  active t = true →
  (∀ j h, live p j = Some h → parent h = true → timer_id h = timer_id this → j = k) →
  ∃ p1,
    exec (call_move_assign k k') p = Some p1 ∧
    service p1 = service p ∧
    (∀ j h, live p1 j = Some h → parent h = true → timer_id h ≠ timer_id this) ∧
    ∀ cs p2,
      Forall (λ c, c ≠ call_construct true (timer_id this)) cs →
      exec_all cs p1 = Some p2 →
      (∃ t2, timer_list (service p2) !! timer_id this = Some t2 ∧ active t2 = true) ∧
      timer_id (get_unique_timer (service p2)).1 ≠ timer_id this.
Proof.
  intros Hk Hp Hk' Hne Ht Hact Hexcl.
  assert (Hlen : (k < length (handles p))%nat).
  { unfold live in Hk. destruct (handles p !! k) eqn:E; [|done].
    by eapply lookup_lt_Some. }
  assert (Hlen' : (k' < length (handles p))%nat).
  { unfold live in Hk'. destruct (handles p !! k') eqn:E; [|done].
    by eapply lookup_lt_Some. }
  eexists. split.
  { unfold exec. rewrite Hk, Hk'. simpl.
    by rewrite bool_decide_eq_false_2. }
  split; [done|].
  match goal with |- (∀ j h, live ?p1 j = _ → _) ∧ _ =>
    assert (Hleak : leaked (timer_id this) p1) end.
  { split; [by exists t|]. intros j h. unfold live; simpl.
    destruct (decide (k' = j)) as [<-|Hj'].
    - rewrite list_lookup_insert_eq by (by rewrite length_insert).
      simpl. by intros [= <-].
    - rewrite list_lookup_insert_ne by done.
      destruct (decide (k = j)) as [<-|Hj].
      + rewrite list_lookup_insert_eq by done. simpl.
        intros [= <-]; simpl. intros Hpo Hid.
        by specialize (Hexcl k' other Hk' Hpo Hid).
      + rewrite list_lookup_insert_ne by done.
        intros Hj1 Hpj Hid. by specialize (Hexcl j h Hj1 Hpj Hid). }
  split; [apply Hleak|].
  intros cs p2 Hcs Hex.
  destruct (exec_all_leaked _ cs _ p2 Hcs Hleak Hex) as [(t2 & Ht2 & Hact2) _].
  split; [by exists t2|].
  by apply (get_unique_timer_active _ _ t2).
Qed.

End ClientFacts.

(** ** The service on the ordered list *)

Section Scenarios.
Import HeapService.

(** A service with one slot, owned by the handle [{parent; timer_id = 0}]. *)
Local Abbreviation one_slot := (get_unique_timer (timers2_new (Q := list timer_run))).2.
Local Abbreviation h0 := {| parent := true; timer_id := 0 |}.
Local Abbreviation h1 := {| parent := true; timer_id := 1 |}.

Lemma handle_stop_unconditional_witness :
  let s := destroy h0 one_slot in
  timer_list s !! 0%nat = Some timer_impl_new ∧
  timer_list (handle_stop h0 s) !! 0%nat = Some timer_impl_new ∧
  trace (handle_stop h0 s) = [] ∧
  handle_set h0 5 s = log (error_setting_inactive 0) s ∧
  handle_run h0 s = log (error_run_inactive 0) s.
Proof.
  intros s.
  destruct (handle_stop_unconditional h0 s timer_impl_new eq_refl)
    as (Hslot & _ & _ & _ & _ & Htr & Herr).
  destruct (Herr eq_refl 5) as [Hset Hrun].
  split; [reflexivity|]. split; [exact Hslot|]. split; [exact Htr|].
  split; [exact Hset | exact Hrun].
Defined.

Lemma destroy_and_move_witness :
  let s := handle_run h0 (handle_set_cb h0 5 (Some 7%nat) one_slot) in
  is_running <$> timer_list s !! 0%nat = Some true ∧
  timer_list (destroy h0 s) !! 0%nat = Some timer_impl_new ∧
  trace (destroy h0 s) = [] ∧
  destroy (move_construct h0).2 s = s ∧
  destroy (move_construct h0).1 s = destroy h0 s.
Proof.
  intros s.
  destruct (destroy_and_move h0 s
              {| duration := 5; timeout := 5; running := true; active := true;
                 callback := Some 7%nat |} eq_refl eq_refl)
    as ((Hslot & _ & _ & _ & Htr) & (Hfrom & Hto) & _).
  split; [reflexivity|]. split; [exact Hslot|]. split; [exact Htr|].
  split; [exact Hfrom | exact Hto].
Defined.

Lemma fires_on_step_after_duration_witness :
  let s := handle_set_cb h0 1 (Some 7%nat) one_slot in
  ∃ s1 s2,
    step_all_times 5 (handle_run h0 (handle_set h0 5 s)) = (returned, s1) ∧
    cur_time s1 = 5 ∧
    calls_of 0 (trace s1) = [] ∧
    step_all s1 = (returned, s2) ∧
    cur_time s2 = 6 ∧
    calls_of 0 (trace s2) = calls_of 0 (trace s1) ++ [called 7%nat 0%nat].
Proof.
  intros s.
  assert (Hc : callable s).
  { intros [|j] t; simpl; [|done]. intros [= <-] _. by eexists. }
  assert (Hsum : 0 < cur_time s + 5 < UINT32_MAX) by (by vm_compute).
  exact (fires_on_step_after_duration h0 s
           {| duration := 1; timeout := 0; running := false; active := true;
              callback := Some 7%nat |} 7%nat 5
           eq_refl eq_refl eq_refl Hc ltac:(lia) ltac:(reflexivity) Hsum).
Defined.

(** C2, as the specification words it, fails for [D = 0] at [cur_time = 0]:
    [run()] stores the timeout 0, with which the slot does not count as
    running; the next [step_all()] pops its entry and calls nothing, and so
    does every later one, the queue being empty. *)
Lemma duration_0_at_time_0_never_fires :
  let s := handle_set_cb h0 3 (Some 7%nat) one_slot in
  let armed := handle_run h0 (handle_set h0 0 s) in
  cur_time armed = 0 ∧
  pq_elements (running_timers armed) = [{| run_timer_id := 0; run_timeout := 0 |}] ∧
  handle_is_running h0 armed = Some false ∧
  (step_all armed).1 = returned ∧
  cur_time (step_all armed).2 = 1 ∧
  calls_of 0 (trace (step_all armed).2) = [] ∧
  pq_elements (running_timers (step_all armed).2) = [].
Proof. by repeat split. Qed.

Lemma cancelled_never_fires_witness :
  let s := (step_all_times 10 one_slot).2 in
  let running := handle_run h0 (handle_set_cb h0 5 (Some 7%nat) s) in
  let stopped := handle_stop h0 running in
  cur_time running = 10 ∧
  pq_elements (running_timers running) = [{| run_timer_id := 0; run_timeout := 15 |}] ∧
  cur_time (step_all_times 6 stopped).2 = 16 ∧
  calls_of 0 (trace (step_all_times 6 stopped).2) = [] ∧
  {| run_timer_id := 0; run_timeout := 15 |}
    ∉ pq_elements (running_timers (step_all_times 6 stopped).2).
Proof.
  intros s running stopped.
  destruct (cancelled_never_fires h0 running stopped 6 (or_introl eq_refl))
    as (Hcalls & _ & Hgone).
  split; [reflexivity|]. split; [reflexivity|]. split; [reflexivity|].
  split; [exact Hcalls|].
  apply Hgone; [reflexivity | lia | by vm_compute].
Defined.

Lemma move_assign_leaks_slot_witness :
  let p := {| service := (get_unique_timer one_slot).2;
              handles := [Some h0; Some h1] |} in
  ∃ p2,
    exec_all [call_move_assign 0 1; call_step_all; call_destroy 1;
              call_get_unique_timer; call_destroy 0; call_get_unique_timer] p
      = Some p2 ∧
    (∃ t2, timer_list (service p2) !! 0%nat = Some t2 ∧ active t2 = true) ∧
    timer_id (get_unique_timer (service p2)).1 ≠ 0%nat.
Proof.
  intros p.
  assert (Hexcl : ∀ j h, live p j = Some h → parent h = true →
                         timer_id h = 0%nat → j = 0%nat).
  { intros [|[|j]] h; simpl; [done| |by destruct j].
    by intros [= <-]. }
  destruct (move_assign_leaks_slot p 0 1 h0 h1
              {| duration := 0; timeout := 0; running := false; active := true;
                 callback := None |}
              eq_refl eq_refl eq_refl ltac:(lia) eq_refl eq_refl Hexcl)
    as (p1 & Hex & _ & _ & Hall).
  vm_compute in Hex. injection Hex as <-.
  eexists. split; [reflexivity|].
  apply (Hall [call_step_all; call_destroy 1; call_get_unique_timer;
               call_destroy 0; call_get_unique_timer]); [|reflexivity].
  by repeat constructor.
Defined.

(** C9, as the specification words it, fails: the constructor
    [unique_timer(parent, id)] is public.  After [h0 = std::move(h1)] has
    left slot 0 active with no handle on it, a handle constructed on slot 0
    clears the slot when it is destroyed, and the next [get_unique_timer()]
    returns slot 0 again. *)
Lemma leaked_slot_reused_after_construct :
  let p := {| service := (get_unique_timer one_slot).2;
              handles := [Some h0; Some h1] |} in
  ∃ p1 p2,
    exec (call_move_assign 0 1) p = Some p1 ∧
    active <$> timer_list (service p1) = [true; true] ∧
    handles p1 = [Some h1; Some {| parent := false; timer_id := 1 |}] ∧
    exec_all [call_construct true 0; call_destroy 2] p1 = Some p2 ∧
    active <$> timer_list (service p2) = [false; true] ∧
    timer_id (get_unique_timer (service p2)).1 = 0%nat.
Proof. intros p. by eexists _, _. Qed.

End Scenarios.

(** ** More on the slots of the fixed-pool registry *)

Section FixedPoolSlots.
Import FixedPool.

Lemma steps_app (n m : nat) (t : timer) :
  steps (n + m) t =
    let '(t1, tr1) := steps n t in
    let '(t2, tr2) := steps m t1 in (t2, tr1 ++ tr2).
Proof.
  revert t. induction n as [|n IH]; intros t.
  - simpl. by destruct (steps m t).
  - simpl. destruct (step t) as [t1 tr1]. rewrite IH.
    destruct (steps n t1) as [t2 tr2]. destruct (steps m t2) as [t3 tr3].
    by rewrite app_assoc.
Qed.

Lemma steps_not_running (n : nat) (t : timer) :
  running t = false → steps n t = (t, []).
Proof.
  intros Hr. induction n as [|n IH]; [done|].
  simpl. unfold step. by rewrite Hr, IH.
Qed.

(** X1.  A slot whose timeout is 0 never calls its callback and is never
    expired, however often it is stepped, and [step()] leaves its running
    flag as it is. *)
Theorem timeout_zero_never_fires (n : nat) (t : timer) :
  timeout t = 0 →
  (steps n t).2 = [] ∧
  is_expired (steps n t).1 = false ∧
  running (steps n t).1 = running t ∧
  timeout (steps n t).1 = 0.
Proof.
  revert t. induction n as [|n IH]; intros t HT.
  - simpl. unfold is_expired. by rewrite HT.
  - simpl. unfold step. destruct (running t) eqn:Hr.
    + assert (He : is_expired (incr_counter t) = false).
      { unfold is_expired, incr_counter; simpl. by rewrite HT. }
      rewrite He. destruct (IH (incr_counter t) HT) as (Htr & Hex & Hrun & Hto).
      destruct (steps n (incr_counter t)) as [t2 tr2]. simpl in *.
      by rewrite Htr, Hex, Hrun, Hto.
    + destruct (IH t HT) as (Htr & Hex & Hrun & Hto).
      destruct (steps n t) as [t2 tr2]. simpl in *.
      by rewrite Htr, Hex, Hrun, Hto.
Qed.

Lemma timeout_zero_never_fires_witness :
  (steps 9 (run (timer_new 3))).2 = [] ∧
  is_expired (steps 9 (run (timer_new 3))).1 = false ∧
  running (steps 9 (run (timer_new 3))).1 = true ∧
  timeout (steps 9 (run (timer_new 3))).1 = 0.
Proof. exact (timeout_zero_never_fires 9 (run (timer_new 3)) eq_refl). Defined.

(** X2.  [stop()] freezes a slot: whatever its state, after [stop()] no
    number of calls of [step()] changes it or calls its callback. *)
Theorem stop_freezes (n : nat) (t : timer) :
  steps n (stop t) = (stop t, []).
Proof. by apply steps_not_running. Qed.

(** X3.  Of the statements of [step()] itself, a callback that calls back
    into the slot being outside this embedding: they never leave a slot both
    running and expired; and when they call the callback, the slot was
    running, the callback is called once, with the id of the slot, and the
    slot has been made expired and not running. *)
Theorem step_calls_only_on_expiry (t : timer) :
  (running (step t).1 = true → is_expired (step t).1 = false) ∧
  ((step t).2 ≠ [] →
   running t = true ∧ running (step t).1 = false ∧
   is_expired (step t).1 = true ∧
   ∃ cb, callback t = Some cb ∧ (step t).2 = [timer_expired cb (id t)]).
Proof.
  unfold step. destruct (running t) eqn:Hr; [|simpl; rewrite Hr; by split].
  destruct (is_expired (incr_counter t)) eqn:He; simpl.
  - destruct (callback t) as [cb|]; simpl; [|by split].
    split; [done|]. intros _. do 3 (split; [done|]). by exists cb.
  - rewrite He. by split.
Qed.

(** X4.  One arming fires once: the slot armed with [set(callback, T)] and
    [run()] has called its callback once after [T] steps, and any number of
    further steps changes nothing and calls nothing. *)
Theorem fires_once_per_arming (t : timer) (cb : timer_callback) (T : Z) (k : nat) :
  1 ≤ T ≤ UINT32_MAX →
  steps (Z.to_nat T + k) (run (set (Some cb) T t)) =
    ({| id := id t; callback := Some cb; timeout := T; counter := T;
        running := false |}, [timer_expired cb (id t)]).
Proof.
  intros HT. rewrite steps_app, steps_timeout by done.
  rewrite steps_not_running by done. by rewrite app_nil_r.
Qed.

Lemma fires_once_per_arming_witness :
  steps (3 + 10) (run (set (Some 7%nat) 3 (timer_new 5))) =
    ({| id := 5; callback := Some 7%nat; timeout := 3; counter := 3;
        running := false |}, [timer_expired 7%nat 5]).
Proof.
  apply (fires_once_per_arming (timer_new 5) 7%nat 3 10).
  unfold UINT32_MAX. lia.
Defined.

(** X5.  [reset()] and [run()] arm a slot again, whatever its counter and
    running flag were: with a timeout [T] from 1 to 2^32 - 1 it counts [T - 1]
    steps without a call and on the [T]-th step calls its callback, if it has
    one, and stops. *)
Theorem reset_run_rearms (t : timer) :
  1 ≤ timeout t ≤ UINT32_MAX →
  (steps (Z.to_nat (timeout t - 1)) (run (reset t))).2 = [] ∧
  is_running (steps (Z.to_nat (timeout t - 1)) (run (reset t))).1 = true ∧
  steps (Z.to_nat (timeout t)) (run (reset t)) =
    ({| id := id t; callback := callback t; timeout := timeout t;
        counter := timeout t; running := false |},
     match callback t with Some cb => [timer_expired cb (id t)] | None => [] end).
Proof.
  intros HT.
  assert (Hset : run (reset t) = run (set (callback t) (timeout t) t)) by done.
  rewrite Hset, steps_timeout by done.
  rewrite steps_counting; simpl; try done; try lia.
  unfold is_running; simpl. split; [done|]. split; [|done]. by Zcmp.
Qed.

Lemma reset_run_rearms_witness :
  let expired := (steps 3 (run (set (Some 7%nat) 3 (timer_new 5)))).1 in
  is_expired expired = true ∧
  steps 3 (run (reset expired)) =
    ({| id := 5; callback := Some 7%nat; timeout := 3; counter := 3;
        running := false |}, [timer_expired 7%nat 5]).
Proof.
  intros expired. split; [reflexivity|].
  assert (HT : 1 ≤ timeout expired ≤ UINT32_MAX) by (by vm_compute).
  exact (proj2 (proj2 (reset_run_rearms expired HT))).
Defined.

End FixedPoolSlots.

(** ** The id allocator of the fixed-pool registry *)

Section FixedPoolAllocator.
Import FixedPool.

Lemma count_used_le (u : list bool) : (count_used u ≤ length u)%nat.
Proof. unfold count_used. apply List.filter_length_le. Qed.

Lemma count_used_cons (b : bool) (u : list bool) :
  count_used (b :: u) = ((if b then 1 else 0) + count_used u)%nat.
Proof. unfold count_used; simpl. by destruct b. Qed.

Lemma count_used_insert_true (u : list bool) (i : nat) :
  u !! i = Some false → count_used (<[i:=true]> u) = S (count_used u).
Proof.
  revert i. induction u as [|b u IH]; intros i Hi; [done|].
  destruct i as [|i]; simpl in *.
  - injection Hi as ->. by rewrite !count_used_cons.
  - rewrite !count_used_cons, (IH i Hi). lia.
Qed.

Lemma count_used_insert_false (u : list bool) (i : nat) :
  u !! i = Some true → count_used u = S (count_used (<[i:=false]> u)).
Proof.
  revert i. induction u as [|b u IH]; intros i Hi; [done|].
  destruct i as [|i]; simpl in *.
  - injection Hi as ->. by rewrite !count_used_cons.
  - rewrite !count_used_cons, (IH i Hi). lia.
Qed.

(** A bitmap with fewer used entries than entries has a free one. *)
Lemma count_used_free (u : list bool) :
  (count_used u < length u)%nat → ∃ j, u !! j = Some false.
Proof.
  induction u as [|b u IH]; simpl; [lia|].
  rewrite count_used_cons. destruct b.
  - intros Hlt. destruct IH as [j Hj]; [lia|]. by exists (S j).
  - intros _. by exists 0%nat.
Qed.

Lemma first_unused_Some (used : list bool) (i : Z) (n : nat) (r : Z) :
  0 ≤ i →
  first_unused used i n = Some r →
  i ≤ r < i + Z.of_nat n ∧
  used !! Z.to_nat r = Some false ∧
  ∀ j, i ≤ j < r → used !! Z.to_nat j ≠ Some false.
Proof.
  revert i. induction n as [|n IH]; intros i Hi; [done|].
  simpl. destruct (used !! Z.to_nat i) as [[|]|] eqn:Hu.
  - intros Hr. destruct (IH (i + 1) ltac:(lia) Hr) as (Hrange & Hfree & Hleast).
    split; [lia|]. split; [done|]. intros j Hj.
    destruct (decide (j = i)) as [->|]; [by rewrite Hu|]. apply Hleast. lia.
  - intros [= <-]. split; [lia|]. split; [done|]. intros j Hj. lia.
  - intros Hr. destruct (IH (i + 1) ltac:(lia) Hr) as (Hrange & Hfree & Hleast).
    split; [lia|]. split; [done|]. intros j Hj.
    destruct (decide (j = i)) as [->|]; [by rewrite Hu|]. apply Hleast. lia.
Qed.

Lemma first_unused_None (used : list bool) (i : Z) (n : nat) :
  0 ≤ i →
  first_unused used i n = None →
  ∀ j, i ≤ j < i + Z.of_nat n → used !! Z.to_nat j ≠ Some false.
Proof.
  revert i. induction n as [|n IH]; intros i Hi Hnone j Hj; [lia|].
  simpl in Hnone. destruct (decide (j = i)) as [->|Hne].
  - by destruct (used !! Z.to_nat i) as [[|]|].
  - apply (IH (i + 1)); [lia| |lia].
    by destruct (used !! Z.to_nat i) as [[|]|].
Qed.

Lemma first_unused_least (used : list bool) (i : Z) (n : nat) (r : Z) :
  0 ≤ i ≤ r →
  r < i + Z.of_nat n →
  used !! Z.to_nat r = Some false →
  (∀ j, i ≤ j < r → used !! Z.to_nat j ≠ Some false) →
  first_unused used i n = Some r.
Proof.
  revert i. induction n as [|n IH]; intros i Hi Hr Hfree Hleast; [lia|].
  simpl. destruct (decide (i = r)) as [->|Hne]; [by rewrite Hfree|].
  assert (Hu : used !! Z.to_nat i ≠ Some false) by (apply Hleast; lia).
  destruct (used !! Z.to_nat i) as [[|]|]; try done;
    (apply IH; [lia|lia|done|]; intros j Hj; apply Hleast; lia).
Qed.

Lemma with_used_with_used (u u' : list bool) (n n' : Z) (s : timers) :
  with_used u n (with_used u' n' s) = with_used u n s.
Proof. done. Qed.

Lemma with_used_id (s : timers) :
  with_used (used_timers s) (nof_used_timers s) s = s.
Proof. by destruct s. Qed.

(** X6.  A registry constructed with a capacity [N] up to 2^32 - 1 has a
    consistent allocator with no id in use; [get(i)] returns the slot with id
    [i], not running and without a callback, for [i < N], and prints an error
    and returns no slot for [i >= N]. *)
Theorem timers_new_get (N : Z) :
  0 ≤ N ≤ UINT32_MAX →
  alloc_ok (timers_new N) ∧
  nof_used_timers (timers_new N) = 0 ∧
  length (timer_list (timers_new N)) = Z.to_nat N ∧
  (∀ i, 0 ≤ i < N → get i (timers_new N) = (Some (timer_new i), [])) ∧
  (∀ i, N ≤ i → get i (timers_new N) = (None, [error_invalid_timer i N])).
Proof.
  intros HN. split; [|split; [done|split; [|split]]].
  - split; [done|]. split; simpl.
    + by rewrite length_replicate.
    + assert (Hc : ∀ n, count_used (replicate n false) = 0%nat)
        by (induction n; [done|by rewrite <- IHn]).
      by rewrite Hc.
  - simpl. by rewrite length_fmap, length_seq.
  - intros i Hi. unfold get; simpl.
    destruct (Z.ltb_spec i N); [|lia].
    rewrite list_lookup_fmap, lookup_seq_lt by lia. simpl.
    do 3 f_equal. lia.
  - intros i Hi. unfold get; simpl.
    by destruct (Z.ltb_spec i N); [lia|].
Qed.

Lemma timers_new_get_witness :
  get 2 (timers_new 4) = (Some (timer_new 2), []) ∧
  get 4 (timers_new 4) = (None, [error_invalid_timer 4 4]).
Proof.
  assert (H4 : 0 ≤ 4 ≤ UINT32_MAX) by (unfold UINT32_MAX; lia).
  destruct (timers_new_get 4 H4) as (_ & _ & _ & Hin & Hout).
  split; [apply Hin; lia | apply Hout; lia].
Defined.

(** [get_unique_id()] on a consistent allocator that is not full. *)
Lemma get_unique_id_not_full (s : timers) :
  alloc_ok s →
  nof_used_timers s < nof_timers s →
  ∃ i,
    0 ≤ i < nof_timers s ∧
    used_timers s !! Z.to_nat i = Some false ∧
    (∀ j, 0 ≤ j < i → used_timers s !! Z.to_nat j = Some true) ∧
    get_unique_id s =
      (i, with_used (<[Z.to_nat i := true]> (used_timers s))
                    (nof_used_timers s + 1) s, []).
Proof.
  intros (HN & Hlen & Hcnt) Hlt. unfold get_unique_id.
  destruct (Z.leb_spec (nof_timers s) (nof_used_timers s)); [lia|].
  destruct (first_unused (used_timers s) 0 (Z.to_nat (nof_timers s)))
    as [i|] eqn:Hfirst.
  - apply first_unused_Some in Hfirst as (Hrange & Hfree & Hleast); [|lia].
    exists i. rewrite wrap32_small by lia.
    split; [lia|]. split; [done|]. split; [|done].
    intros j Hj.
    destruct (used_timers s !! Z.to_nat j) as [[|]|] eqn:Hu; [done| |].
    + by destruct (Hleast j Hj).
    + apply lookup_ge_None in Hu. lia.
  - destruct (count_used_free (used_timers s)) as [j Hj]; [lia|].
    pose proof (lookup_lt_Some _ _ _ Hj) as Hjlt.
    pose proof (first_unused_None (used_timers s) 0 (Z.to_nat (nof_timers s))
                  (Z.le_refl 0) Hfirst (Z.of_nat j)) as Hnone.
    rewrite Nat2Z.id in Hnone. destruct Hnone; [lia|done].
Qed.

(** X7.  With a consistent allocator that is not full, [get_unique_id()]
    prints nothing, returns the least id that is free, marks it used and adds
    one to the used-count, and the allocator is consistent afterwards: the
    second error of the function is not reached. *)
Theorem get_unique_id_first_free (s : timers) :
  alloc_ok s →
  nof_used_timers s < nof_timers s →
  ∃ i,
    0 ≤ i < nof_timers s ∧
    used_timers s !! Z.to_nat i = Some false ∧
    (∀ j, 0 ≤ j < i → used_timers s !! Z.to_nat j = Some true) ∧
    get_unique_id s =
      (i, with_used (<[Z.to_nat i := true]> (used_timers s))
                    (nof_used_timers s + 1) s, []) ∧
    alloc_ok (get_unique_id s).1.2.
Proof.
  intros Hok Hlt.
  destruct (get_unique_id_not_full s Hok Hlt) as (i & Hi & Hfree & Hleast & Hget).
  destruct Hok as (HN & Hlen & Hcnt).
  exists i. do 4 (split; [done|]). rewrite Hget. simpl.
  split; [done|]. split; simpl.
  - by rewrite length_insert.
  - rewrite count_used_insert_true by done. lia.
Qed.

Lemma get_unique_id_first_free_witness :
  let s := (get_unique_id (timers_new 3)).1.2 in
  ∃ i,
    0 ≤ i < 3 ∧
    used_timers s !! Z.to_nat i = Some false ∧
    (∀ j, 0 ≤ j < i → used_timers s !! Z.to_nat j = Some true) ∧
    get_unique_id s = (i, with_used (<[Z.to_nat i := true]> [true; false; false]) 2 s, []) ∧
    alloc_ok (get_unique_id s).1.2.
Proof.
  intros s.
  assert (Hok : alloc_ok s) by (split; [by vm_compute|by split]).
  exact (get_unique_id_first_free s Hok ltac:(reflexivity)).
Defined.

(** [release_id(i)] of an id that is in use. *)
Lemma release_id_in_use (i : Z) (s : timers) :
  alloc_ok s →
  0 ≤ i < nof_timers s →
  used_timers s !! Z.to_nat i = Some true →
  0 < nof_used_timers s ∧
  release_id i s =
    (with_used (<[Z.to_nat i := false]> (used_timers s))
               (nof_used_timers s - 1) s, []).
Proof.
  intros (HN & Hlen & Hcnt) Hi Hu.
  pose proof (count_used_insert_false _ _ Hu) as Hc.
  pose proof (count_used_le (used_timers s)) as Hle.
  split; [lia|]. unfold release_id.
  destruct (Z.ltb_spec 0 (nof_used_timers s)); [|lia].
  destruct (Z.ltb_spec i (nof_timers s)); [|lia]. simpl.
  by rewrite wrap32_small by lia.
Qed.

(** X8.  With a consistent allocator, [release_id(i)] of an id that is in
    use prints nothing, marks [i] free and takes one from the used-count, and
    the allocator is consistent afterwards. *)
Theorem release_id_allocated (i : Z) (s : timers) :
  alloc_ok s →
  0 ≤ i < nof_timers s →
  used_timers s !! Z.to_nat i = Some true →
  release_id i s =
    (with_used (<[Z.to_nat i := false]> (used_timers s))
               (nof_used_timers s - 1) s, []) ∧
  alloc_ok (release_id i s).1 ∧
  used_timers (release_id i s).1 !! Z.to_nat i = Some false.
Proof.
  intros Hok Hi Hu.
  destruct (release_id_in_use i s Hok Hi Hu) as [Hpos ->].
  destruct Hok as (HN & Hlen & Hcnt).
  pose proof (count_used_insert_false _ _ Hu) as Hc.
  split; [done|]. split.
  - split; [done|]. split; simpl; [by rewrite length_insert|lia].
  - simpl. apply list_lookup_insert_eq. lia.
Qed.

Lemma release_id_allocated_witness :
  let s := (get_unique_id (get_unique_id (timers_new 3)).1.2).1.2 in
  release_id 0 s = (with_used [false; true; false] 1 s, []) ∧
  alloc_ok (release_id 0 s).1 ∧
  used_timers (release_id 0 s).1 !! 0%nat = Some false.
Proof.
  intros s.
  assert (Hok : alloc_ok s) by (split; [by vm_compute|by split]).
  exact (release_id_allocated 0 s Hok ltac:(by vm_compute) eq_refl).
Defined.

(** X9.  With a consistent allocator that is not full, releasing the id
    that [get_unique_id()] has just returned prints nothing and gives back
    the registry as it was before the call. *)
Theorem get_then_release_restores (s : timers) :
  alloc_ok s →
  nof_used_timers s < nof_timers s →
  release_id (get_unique_id s).1.1 (get_unique_id s).1.2 = (s, []).
Proof.
  intros Hok Hlt.
  destruct (get_unique_id_not_full s Hok Hlt)
    as (i & Hi & Hfree & _ & ->). simpl.
  destruct Hok as (HN & Hlen & Hcnt).
  pose proof (count_used_le (used_timers s)) as Hle.
  unfold release_id; simpl.
  destruct (Z.ltb_spec 0 (nof_used_timers s + 1)); [|lia].
  destruct (Z.ltb_spec i (nof_timers s)); [|lia]. simpl.
  rewrite wrap32_small by lia.
  rewrite list_insert_insert_eq, list_insert_id by done.
  replace (nof_used_timers s + 1 - 1) with (nof_used_timers s) by lia.
  unfold with_used; simpl. by destruct s.
Qed.

Lemma get_then_release_restores_witness :
  let s := (get_unique_id (timers_new 3)).1.2 in
  release_id (get_unique_id s).1.1 (get_unique_id s).1.2 = (s, []).
Proof.
  intros s.
  assert (Hok : alloc_ok s) by (split; [by vm_compute|by split]).
  exact (get_then_release_restores s Hok ltac:(reflexivity)).
Defined.

(** X10.  With a consistent allocator, when [i] is in use and so is every
    id below it, [release_id(i)] followed by [get_unique_id()] returns [i]
    again, prints nothing and gives back the registry as it was.  On a full
    registry this holds for every id. *)
Theorem release_then_get_same_id (i : Z) (s : timers) :
  alloc_ok s →
  0 ≤ i < nof_timers s →
  (∀ j, 0 ≤ j ≤ i → used_timers s !! Z.to_nat j = Some true) →
  (release_id i s).2 = [] ∧
  get_unique_id (release_id i s).1 = (i, s, []).
Proof.
  intros Hok Hi Hused.
  destruct (release_id_in_use i s Hok Hi (Hused i ltac:(lia))) as [_ ->].
  assert (Hfree : <[Z.to_nat i:=false]> (used_timers s) !! Z.to_nat i = Some false).
  { apply list_lookup_insert_eq. destruct Hok as (? & ? & ?). lia. }
  split; [done|]. simpl in *.
  destruct Hok as (HN & Hlen & Hcnt).
  pose proof (count_used_insert_false _ _ (Hused i ltac:(lia))) as Hc.
  pose proof (count_used_le (used_timers s)) as Hle.
  unfold get_unique_id; simpl.
  destruct (Z.leb_spec (nof_timers s) (nof_used_timers s - 1)); [lia|].
  rewrite (first_unused_least _ 0 _ i); [|lia|lia|done|].
  - rewrite wrap32_small by lia.
    rewrite list_insert_insert_eq, list_insert_id by (apply Hused; lia).
    replace (nof_used_timers s - 1 + 1) with (nof_used_timers s) by lia.
    unfold with_used; simpl. by destruct s.
  - intros j Hj. rewrite list_lookup_insert_ne by lia.
    by rewrite Hused by lia.
Qed.

Lemma release_then_get_same_id_witness :
  let s := (get_unique_ids 4 (timers_new 4)).1.2 in
  nof_used_timers s = 4 ∧
  (release_id 2 s).2 = [] ∧
  get_unique_id (release_id 2 s).1 = (2, s, []).
Proof.
  intros s. split; [reflexivity|].
  assert (Hok : alloc_ok s) by (split; [by vm_compute|by split]).
  apply (release_then_get_same_id 2 s Hok); [by vm_compute|].
  intros j Hj.
  assert (Hcases : j = 0 ∨ j = 1 ∨ j = 2) by lia.
  by destruct Hcases as [->|[->| ->]].
Defined.

(** The registry after the ids [0 .. j-1] were allocated in order. *)
Lemma get_unique_ids_from (N : Z) (k j : nat) :
  0 ≤ N ≤ UINT32_MAX →
  (j + k ≤ Z.to_nat N)%nat →
  get_unique_ids k
    (with_used (replicate j true ++ replicate (Z.to_nat N - j) false)
               (Z.of_nat j) (timers_new N)) =
    (Z.of_nat <$> seq j k,
     with_used (replicate (j + k) true ++ replicate (Z.to_nat N - (j + k)) false)
               (Z.of_nat (j + k)) (timers_new N), []).
Proof.
  intros HN. revert j. induction k as [|k IH]; intros j Hjk.
  - simpl. by rewrite Nat.add_0_r.
  - cbn [get_unique_ids]. unfold get_unique_id at 1. cbn [nof_timers nof_used_timers
      with_used used_timers timers_new].
    destruct (Z.leb_spec N (Z.of_nat j)); [lia|].
    rewrite (first_unused_least _ 0 _ (Z.of_nat j)); [|lia|lia| |].
    + rewrite Nat2Z.id, wrap32_small by lia.
      rewrite insert_app_r_alt by (by rewrite length_replicate).
      rewrite length_replicate, Nat.sub_diag.
      replace (Z.to_nat N - j)%nat with (S (Z.to_nat N - S j)) by lia.
      change (<[0%nat:=true]> (replicate (S (Z.to_nat N - S j)) false))
        with (true :: replicate (Z.to_nat N - S j) false).
      rewrite (cons_middle true), app_assoc, <- replicate_S_end.
      replace (Z.of_nat j + 1) with (Z.of_nat (S j)) by lia.
      rewrite with_used_with_used, (IH (S j)) by lia.
      replace (S j + k)%nat with (j + S k)%nat by lia. done.
    + rewrite Nat2Z.id, lookup_app_r by (by rewrite length_replicate).
      rewrite length_replicate, Nat.sub_diag.
      apply lookup_replicate_2. lia.
    + intros i Hi. rewrite lookup_app_l by (rewrite length_replicate; lia).
      rewrite lookup_replicate_2 by lia. done.
Qed.

(** X11.  On a registry constructed with capacity [N], the first [k <= N]
    calls of [get_unique_id()] return 0, 1, ..., [k - 1] in this order and
    print nothing: no id is returned twice, and exactly the ids returned are
    marked used. *)
Theorem get_unique_ids_in_order (N : Z) (k : nat) :
  0 ≤ N ≤ UINT32_MAX →
  Z.of_nat k ≤ N →
  get_unique_ids k (timers_new N) =
    (Z.of_nat <$> seq 0 k,
     with_used (replicate k true ++ replicate (Z.to_nat N - k) false)
               (Z.of_nat k) (timers_new N), []).
Proof.
  intros HN Hk.
  pose proof (get_unique_ids_from N k 0 HN ltac:(lia)) as Hfrom.
  rewrite Nat.sub_0_r in Hfrom. exact Hfrom.
Qed.

Lemma get_unique_ids_in_order_witness :
  get_unique_ids 3 (timers_new 5) =
    ([0; 1; 2], with_used [true; true; true; false; false] 3 (timers_new 5), []).
Proof.
  apply (get_unique_ids_in_order 5 3); unfold UINT32_MAX; lia.
Defined.

(** [step_list] steps every slot on its own. *)
Lemma step_list_map (l : list timer) :
  step_list l = ((λ t, (step t).1) <$> l, concat ((λ t, (step t).2) <$> l)).
Proof.
  induction l as [|t l IH]; [done|].
  simpl. rewrite IH. by destruct (step t).
Qed.


(** X13.  After [stop_all()] the registry is silent: [step_all()] changes
    nothing and calls nothing, and every slot keeps its counter, timeout and
    callback for a later [run()]. *)
Theorem stop_all_silences (s : timers) :
  step_all (stop_all s) = (stop_all s, []) ∧
  timer_list (stop_all s) = stop <$> timer_list s.
Proof.
  split; [|done]. unfold step_all, stop_all, for_all. simpl.
  rewrite step_list_map.
  assert (Hl : ∀ l : list timer,
            ((λ t, (step t).1) <$> (stop <$> l) = stop <$> l) ∧
            concat ((λ t, (step t).2) <$> (stop <$> l)) = []).
  { induction l as [|t l [IH1 IH2]]; [done|].
    rewrite !fmap_cons. cbn [concat]. by rewrite IH1, IH2. }
  destruct (Hl (timer_list s)) as [-> ->]. done.
Qed.

End FixedPoolAllocator.

(** ** More on [step_all()] of the heap-scheduled service *)

Section HeapStepAll.
Import HeapService.
Context {Q : Type} `{PriorityQueue Q}.
Implicit Types (s : timers2 Q) (t : timer_impl) (e : timer_run) (h : unique_timer).

(** What the loop may do to a slot: clear [running]. *)
Lemma step_all_loop_fields i n s t :
  timer_list s !! i = Some t →
  ∃ t', timer_list (step_all_loop n s).2 !! i = Some t' ∧
        duration t' = duration t ∧ timeout t' = timeout t ∧
        active t' = active t ∧ callback t' = callback t ∧
        (running t' = true → running t = true).
Proof.
  revert s t. induction n as [|n IH]; intros s t Ht; [by exists t|].
  rewrite step_all_loop_S.
  destruct (pq_top (running_timers s)) as [e|]; [|by exists t].
  destruct (run_timeout e <? cur_time s); [|by exists t].
  destruct (trigger_top_cases e s)
    as [[-> _]|[(t0 & _ & _ & _ & _ & ->)|(t0 & f & _ & _ & _ & _ & ->)]];
    [|by exists t|].
  - by apply (IH (with_running_timers (pq_pop (running_timers s)) s)).
  - destruct (decide (run_timer_id e = i)) as [Hid|Hid].
    + match goal with |- context [step_all_loop n ?s1] =>
        destruct (IH s1 (set_running false t))
          as (t' & ? & ? & ? & ? & ? & Hrun) end.
      { simpl. by rewrite Hid, list_lookup_alter_eq, Ht. }
      exists t'. do 5 (split; [done|]). intros Hr. by apply Hrun in Hr.
    + match goal with |- context [step_all_loop n ?s1] =>
        destruct (IH s1 t) as (t' & ? & ? & ? & ? & ? & ?) end.
      { simpl. by rewrite list_lookup_alter_ne. }
      by exists t'.
Qed.

(** What the loop adds to the trace: calls of callbacks. *)
Lemma step_all_loop_trace n s :
  ∃ tr, trace (step_all_loop n s).2 = trace s ++ tr ∧
        Forall (λ ev, ∃ f j, ev = called f j) tr.
Proof.
  revert s. induction n as [|n IH]; intros s.
  { exists []. by rewrite app_nil_r. }
  rewrite step_all_loop_S.
  destruct (pq_top (running_timers s)) as [e|];
    [|exists []; by rewrite app_nil_r].
  destruct (run_timeout e <? cur_time s);
    [|exists []; by rewrite app_nil_r].
  destruct (trigger_top_cases e s)
    as [[-> _]|[(t0 & _ & _ & _ & _ & ->)|(t0 & f & _ & _ & _ & _ & ->)]].
  - by apply (IH (with_running_timers (pq_pop (running_timers s)) s)).
  - exists []. by rewrite app_nil_r.
  - match goal with |- context [step_all_loop n ?s1] =>
      destruct (IH s1) as (tr & -> & Htr) end.
    exists (called f (run_timer_id e) :: tr). simpl.
    split; [by rewrite <- app_assoc|].
    constructor; [by eexists _, _|done].
Qed.

(** X14.  Provided that no callback calls back into the service (as in
    this embedding), [step_all()] adds one to the time, modulo 2^32, and keeps
    the number of slots; in every slot it leaves the duration, the timeout,
    the active flag and the callback as they are and may only clear
    [running]; to the trace it only adds calls of callbacks, no error. *)
Theorem step_all_only_clears_running s :
  cur_time (step_all s).2 = wrap32 (cur_time s + 1) ∧
  length (timer_list (step_all s).2) = length (timer_list s) ∧
  (∀ i t, timer_list s !! i = Some t →
     ∃ t', timer_list (step_all s).2 !! i = Some t' ∧
           duration t' = duration t ∧ timeout t' = timeout t ∧
           active t' = active t ∧ callback t' = callback t ∧
           (running t' = true → running t = true)) ∧
  ∃ tr, trace (step_all s).2 = trace s ++ tr ∧
        Forall (λ ev, ∃ f j, ev = called f j) tr.
Proof.
  unfold step_all. set (s1 := with_cur_time (wrap32 (cur_time s + 1)) s).
  destruct (step_all_loop_frame (pq_size (running_timers s1)) s1) as [Hc Hl].
  split; [done|]. split; [done|]. split.
  - intros i t Ht. by apply (step_all_loop_fields i _ s1 t).
  - apply (step_all_loop_trace _ s1).
Qed.



Section Laws.
Context `{!PriorityQueueLaws Q}.

Lemma step_all_loop_queue n s e :
  e ∈ pq_elements (running_timers (step_all_loop n s).2) →
  e ∈ pq_elements (running_timers s).
Proof.
  revert s. induction n as [|n IH]; intros s; [done|].
  rewrite step_all_loop_S.
  destruct (pq_top (running_timers s)) as [e0|] eqn:Htop; [|done].
  destruct (run_timeout e0 <? cur_time s); [|done].
  destruct (trigger_top_cases e0 s)
    as [[-> _]|[(t0 & _ & _ & _ & _ & ->)|(t0 & f & _ & _ & _ & _ & ->)]];
    [|done|].
  - intros He. apply IH in He. simpl in He.
    by apply (pq_elements_pop_subset _ e0).
  - intros He. apply IH in He. simpl in He.
    by apply (pq_elements_pop_subset _ e0).
Qed.

(** X16.  Provided that no callback calls back into the service (as in
    this embedding), [step_all()] schedules nothing: every entry in the queue
    after the call was in the queue before it; and after a call that has
    returned, the timeout of every entry left is at least the new time. *)
Theorem step_all_queue s :
  (∀ e, e ∈ pq_elements (running_timers (step_all s).2) →
        e ∈ pq_elements (running_timers s)) ∧
  ((step_all s).1 = returned →
   ∀ e, e ∈ pq_elements (running_timers (step_all s).2) →
        cur_time (step_all s).2 ≤ run_timeout e).
Proof.
  split.
  - intros e. unfold step_all.
    apply (step_all_loop_queue _ (with_cur_time (wrap32 (cur_time s + 1)) s)).
  - intros Hret e He. destruct (step_all s) as [st s'] eqn:Hs.
    simpl in *. subst st. by apply (step_all_drained s s').
Qed.

End Laws.

End HeapStepAll.

(** ** Arming and cancelling in the heap-scheduled service *)

Section HeapArming.
Import HeapService.
Context {Q : Type} `{PriorityQueue Q} `{!PriorityQueueLaws Q}.
Implicit Types (s : timers2 Q) (t : timer_impl) (e : timer_run) (h : unique_timer).

Lemma step_all_times_app (n m : nat) s :
  step_all_times (n + m) s =
    match step_all_times n s with
    | (returned, s1) => step_all_times m s1
    | (bad_function_call, s1) => (bad_function_call, s1)
    end.
Proof.
  revert s. induction n as [|n IH]; intros s; [done|].
  simpl. destruct (step_all s) as [[] s1]; [apply IH|done].
Qed.



(** Before the time passes [T0], the loop neither touches a slot whose
    timeout is [T0], nor calls it, nor pops its entry. *)
Lemma step_all_loop_keeps i T0 n s t :
  timer_list s !! i = Some t →
  timeout t = T0 →
  {| run_timer_id := i; run_timeout := T0 |} ∈ pq_elements (running_timers s) →
  cur_time s ≤ T0 →
  calls_of i (trace (step_all_loop n s).2) = calls_of i (trace s) ∧
  ((step_all_loop n s).1 = returned →
   timer_list (step_all_loop n s).2 !! i = Some t ∧
   {| run_timer_id := i; run_timeout := T0 |}
     ∈ pq_elements (running_timers (step_all_loop n s).2)).
Proof.
  revert s. induction n as [|n IH]; intros s Ht Hto Hin Hle; [done|].
  rewrite step_all_loop_S.
  destruct (pq_top (running_timers s)) as [e|] eqn:Htop; [|done].
  destruct (Z.ltb_spec (run_timeout e) (cur_time s)) as [Hlt|Hge]; [|done].
  assert (Hne : {| run_timer_id := i; run_timeout := T0 |} ≠ e).
  { intros <-. simpl in Hlt. lia. }
  destruct (trigger_top_cases e s)
    as [[-> _]|[(t0 & _ & _ & _ & _ & ->)|(t0 & f & Ht0 & Hto0 & _ & _ & ->)]];
    [|done|].
  - apply (IH (with_running_timers (pq_pop (running_timers s)) s)); try done.
    simpl. by apply (pq_elements_pop_other _ e).
  - assert (Hid : run_timer_id e ≠ i).
    { intros Hid. rewrite Hid in Ht0. simplify_eq. lia. }
    match goal with |- context [step_all_loop n ?s1] =>
      destruct (IH s1) as [-> Hkeep] end; try done.
    + simpl. by rewrite list_lookup_alter_ne.
    + simpl. by apply (pq_elements_pop_other _ e).
    + split; [|done]. simpl.
      rewrite calls_of_app, calls_of_called_ne by done. by rewrite app_nil_r.
Qed.

(** Once the time has passed the timeout of a running slot with no
    callback, the loop throws. *)
Lemma step_all_loop_throws i T0 n s t :
  timer_list s !! i = Some t →
  active t = true → running t = true → timeout t = T0 → callback t = None →
  {| run_timer_id := i; run_timeout := T0 |} ∈ pq_elements (running_timers s) →
  0 < T0 < cur_time s →
  (pq_size (running_timers s) ≤ n)%nat →
  (step_all_loop n s).1 = bad_function_call ∧
  calls_of i (trace (step_all_loop n s).2) = calls_of i (trace s).
Proof.
  revert s. induction n as [|n IH]; intros s Ht Hact Hrun Hto Hcb Hin HT Hn.
  { unfold pq_size in Hn.
    destruct (pq_elements (running_timers s)); simpl in Hn; [|lia].
    by apply elem_of_nil in Hin. }
  rewrite step_all_loop_S.
  destruct (pq_top (running_timers s)) as [e|] eqn:Htop.
  2: { apply pq_top_None in Htop. rewrite Htop in Hin.
       by apply elem_of_nil in Hin. }
  apply pq_size_pop in Htop as Hsz.
  pose proof (pq_top_least _ _ _ Htop Hin) as Hleast. simpl in Hleast.
  destruct (Z.ltb_spec (run_timeout e) (cur_time s)); [|lia].
  assert (Hr : is_running t = true).
  { unfold is_running. rewrite Hact, Hrun. simpl. apply Z.ltb_lt. lia. }
  destruct (trigger_top_cases e s)
    as [[-> Hskip]|[(t0 & _ & _ & _ & _ & ->)|(t0 & f & Ht0 & _ & _ & Hf & ->)]];
    [|done|].
  - apply (IH (with_running_timers (pq_pop (running_timers s)) s));
      try done; [|simpl; lia].
    simpl. apply (pq_elements_pop_other _ e); [done..|].
    intros <-. simpl in Hskip. specialize (Hskip t Ht Hto). congruence.
  - assert (Hid : run_timer_id e ≠ i).
    { intros Hid. rewrite Hid in Ht0. simplify_eq. }
    match goal with |- context [step_all_loop n ?s1] =>
      destruct (IH s1) as [-> ->] end; try done.
    + simpl. by rewrite list_lookup_alter_ne.
    + simpl. apply (pq_elements_pop_other _ e); [done..|].
      intros <-. by apply Hid.
    + simpl. lia.
    + split; [done|]. simpl.
      rewrite calls_of_app, calls_of_called_ne by done. by rewrite app_nil_r.
Qed.

Lemma step_all_times_throws i T0 (k : nat) s t :
  timer_list s !! i = Some t →
  active t = true → running t = true → timeout t = T0 → callback t = None →
  {| run_timer_id := i; run_timeout := T0 |} ∈ pq_elements (running_timers s) →
  0 ≤ cur_time s →
  cur_time s + Z.of_nat k = T0 →
  0 < T0 < UINT32_MAX →
  (step_all_times (k + 1) s).1 = bad_function_call ∧
  calls_of i (trace (step_all_times (k + 1) s).2) = calls_of i (trace s).
Proof.
  revert s. induction k as [|k IH]; intros s Ht Hact Hrun Hto Hcb Hin H0 Hk HT.
  - simpl. unfold step_all. rewrite wrap32_small by lia.
    set (s1 := with_cur_time (cur_time s + 1) s).
    destruct (step_all_loop_throws i T0 (pq_size (running_timers s1)) s1 t)
      as [Hst Hcalls]; try done; [simpl; lia|].
    destruct (step_all_loop _ s1) as [st s2]. simpl in *. by subst st.
  - change (S k + 1)%nat with (S (k + 1)). cbn [step_all_times].
    unfold step_all. rewrite wrap32_small by lia.
    set (s1 := with_cur_time (cur_time s + 1) s).
    destruct (step_all_loop_keeps i T0 (pq_size (running_timers s1)) s1 t)
      as [Hcalls Hkeep]; try done; [simpl; lia|].
    pose proof (step_all_loop_frame (pq_size (running_timers s1)) s1) as [Hct _].
    destruct (step_all_loop _ s1) as [[] s2]; simpl in *; [|done].
    destruct (Hkeep eq_refl) as [Ht2 Hin2].
    destruct (IH s2) as [-> ->]; try done; lia.
Qed.

(** X18.  [run()] on an active slot that has no callback ends in an
    exception: with a duration [D] and [0 < T + D < 2^32 - 1], among the next
    [D + 1] calls of [step_all()] one throws [std::bad_function_call], and no
    callback of the slot has been called. *)
Theorem run_without_callback_throws h s t :
  timer_list s !! timer_id h = Some t →
  active t = true →
  callback t = None →
  0 ≤ duration t →
  0 ≤ cur_time s →
  0 < cur_time s + duration t < UINT32_MAX →
  (step_all_times (Z.to_nat (duration t) + 1) (handle_run h s)).1
    = bad_function_call ∧
  calls_of (timer_id h) (trace (step_all_times (Z.to_nat (duration t) + 1)
                                  (handle_run h s)).2)
    = calls_of (timer_id h) (trace s).
Proof.
  intros Ht Hact Hcb HD HT Hsum.
  assert (Hrun : handle_run h s =
            with_running_timers
              (pq_emplace {| run_timer_id := timer_id h;
                             run_timeout := cur_time s + duration t |}
                          (running_timers s))
              (update_slot (timer_id h) (run_slot (cur_time s + duration t)) s)).
  { unfold handle_run, impl_run. rewrite Ht, Hact. simpl.
    by rewrite wrap32_small by lia. }
  destruct (step_all_times_throws (timer_id h) (cur_time s + duration t)
              (Z.to_nat (duration t)) (handle_run h s)
              (run_slot (cur_time s + duration t) t))
    as [-> ->]; try done; rewrite ?Hrun; simpl; try lia.
  - by rewrite list_lookup_alter_eq, Ht.
  - rewrite pq_elements_emplace. by apply elem_of_cons; left.
  - done.
Qed.

(** X19.  Destroying a handle that owns its slot cancels what was pending
    for the slot: after any number of calls of [step_all()], however they
    end, the callback of the slot has not been called and the slot is still
    cleared. *)
Theorem destroy_cancels h s (n : nat) :
  parent h = true →
  calls_of (timer_id h) (trace (step_all_times n (destroy h s)).2) =
    calls_of (timer_id h) (trace s) ∧
  timer_list (step_all_times n (destroy h s)).2 !! timer_id h =
    clear <$> timer_list s !! timer_id h.
Proof.
  intros Hp. unfold destroy. rewrite Hp.
  assert (Hq : not_running (timer_id h) (impl_clear (timer_id h) s)).
  { intros t. unfold impl_clear. rewrite lookup_update_slot.
    destruct (timer_list s !! timer_id h); [|done]. by intros [= <-]. }
  destruct (step_all_times_not_running _ n _ Hq) as [-> ->].
  split; [done|]. unfold impl_clear. by rewrite lookup_update_slot.
Qed.

End HeapArming.

(** ** [stop_all()] and [get_unique_timer()] *)

Section HeapSlots.
Import HeapService.
Context {Q : Type} `{PriorityQueue Q}.
Implicit Types (s : timers2 Q) (t : timer_impl) (e : timer_run) (h : unique_timer).

Lemma pop_all_empty `{!PriorityQueueLaws Q} (n : nat) (q : Q) :
  (pq_size q ≤ n)%nat → pq_elements (pop_all n q) = [].
Proof.
  revert q. induction n as [|n IH]; intros q Hn.
  - simpl. unfold pq_size in Hn. apply length_zero_iff_nil. lia.
  - simpl. destruct (pq_top q) as [e|] eqn:Htop.
    + apply IH. rewrite (pq_size_pop q e Htop) in Hn. lia.
    + by apply pq_top_None.
Qed.

(** With nothing queued, [step_all()] only advances the time. *)
Lemma step_all_times_empty (n : nat) s :
  pq_elements (running_timers s) = [] →
  (step_all_times n s).1 = returned ∧
  trace (step_all_times n s).2 = trace s ∧
  timer_list (step_all_times n s).2 = timer_list s ∧
  running_timers (step_all_times n s).2 = running_timers s.
Proof.
  revert s. induction n as [|n IH]; intros s He; [done|].
  simpl. unfold step_all, pq_size. simpl. rewrite He. simpl.
  by apply (IH (with_cur_time (wrap32 (cur_time s + 1)) s)).
Qed.

(** X20.  [stop_all()] empties the queue and clears [running] in every
    slot, calls nothing and leaves the time and the other fields as they
    are; afterwards any number of calls of [step_all()] returns, calls
    nothing and changes no slot. *)
Theorem stop_all_cancels_everything `{!PriorityQueueLaws Q} s :
  pq_elements (running_timers (stop_all s)) = [] ∧
  timer_list (stop_all s) = set_running false <$> timer_list s ∧
  cur_time (stop_all s) = cur_time s ∧
  trace (stop_all s) = trace s ∧
  ∀ n, (step_all_times n (stop_all s)).1 = returned ∧
       trace (step_all_times n (stop_all s)).2 = trace s ∧
       timer_list (step_all_times n (stop_all s)).2 = timer_list (stop_all s).
Proof.
  assert (He : pq_elements (running_timers (stop_all s)) = [])
    by (by apply pop_all_empty).
  split; [done|]. do 3 (split; [done|]).
  intros n. destruct (step_all_times_empty n (stop_all s) He) as (? & ? & ? & _).
  by split.
Qed.

Lemma first_inactive_spec (l : list timer_impl) (i0 : nat) :
  (i0 ≤ first_inactive l i0 ≤ i0 + length l)%nat ∧
  (∀ j t, l !! j = Some t → (i0 + j < first_inactive l i0)%nat → active t = true) ∧
  (∀ t, l !! (first_inactive l i0 - i0)%nat = Some t → active t = false).
Proof.
  revert i0. induction l as [|t0 l IH]; intros i0; simpl.
  { split; [lia|]. by split. }
  destruct (active t0) eqn:Hact; simpl.
  - destruct (IH (S i0)) as (Hrange & Hbelow & Hat).
    split; [lia|]. split.
    + intros [|j] t; simpl.
      * by intros [= <-] _.
      * intros Hj Hlt. apply (Hbelow j t Hj). lia.
    + intros t.
      replace (first_inactive l (S i0) - i0)%nat
        with (S (first_inactive l (S i0) - S i0)) by lia.
      simpl. apply Hat.
  - split; [lia|]. split; [intros; lia|].
    rewrite Nat.sub_diag. simpl. by intros t [= <-].
Qed.

(** X21.  [get_unique_timer()] returns a handle on the first slot that is
    not active, or on a new slot at the end when all are active: every slot
    below the one returned is active, the slot returned was not active or did
    not exist, afterwards it is active with its other fields as they were (the
    default ones for a new slot), the vector grows by one slot only when the
    slot is new, and the other slots, the queue, the time and the trace are
    not touched. *)
Theorem get_unique_timer_first_inactive s :
  let h := (get_unique_timer s).1 in
  let s' := (get_unique_timer s).2 in
  parent h = true ∧
  (timer_id h ≤ length (timer_list s))%nat ∧
  (∀ j t, (j < timer_id h)%nat → timer_list s !! j = Some t → active t = true) ∧
  (∀ t, timer_list s !! timer_id h = Some t → active t = false) ∧
  timer_list s' !! timer_id h =
    Some (set_active true (default timer_impl_new (timer_list s !! timer_id h))) ∧
  length (timer_list s') = (length (timer_list s) `max` S (timer_id h))%nat ∧
  (∀ j, j ≠ timer_id h → timer_list s' !! j = timer_list s !! j) ∧
  running_timers s' = running_timers s ∧
  cur_time s' = cur_time s ∧
  trace s' = trace s.
Proof.
  unfold get_unique_timer; simpl.
  destruct (first_inactive_spec (timer_list s) 0) as (Hrange & Hbelow & Hat).
  set (i := first_inactive (timer_list s) 0) in *.
  rewrite Nat.sub_0_r in Hat. simpl in Hrange.
  split; [done|]. split; [lia|]. split; [|split; [done|]].
  { intros j t Hj Ht. by apply (Hbelow j t). }
  destruct (Nat.eqb_spec i (length (timer_list s))) as [Heq|Hne].
  - split; [|split; [|split; [|done]]].
    + rewrite list_lookup_alter_eq, lookup_app_r by lia.
      rewrite Heq, Nat.sub_diag. simpl.
      by rewrite (lookup_ge_None_2 (timer_list s)) by lia.
    + rewrite length_alter, length_app. simpl. lia.
    + intros j Hj. rewrite list_lookup_alter_ne by done.
      destruct (decide (j < length (timer_list s))%nat).
      * by rewrite lookup_app_l.
      * rewrite lookup_app_r by lia.
        rewrite (lookup_ge_None_2 (timer_list s)) by lia.
        destruct (j - length (timer_list s))%nat as [|m] eqn:Hm; [lia|done].
  - split; [|split; [|split; [|done]]].
    + rewrite list_lookup_alter_eq.
      destruct (lookup_lt_is_Some_2 (timer_list s) i) as [t Ht]; [lia|].
      by rewrite Ht.
    + rewrite length_alter. lia.
    + intros j Hj. by rewrite list_lookup_alter_ne.
Qed.

(** X22.  A slot freed by the destruction of its handle is used again
    before the vector grows: the next [get_unique_timer()] returns the freed
    slot or a free one below it and adds no slot, and it returns the freed
    slot itself when every slot below it is active. *)
Theorem get_unique_timer_reuses h s :
  parent h = true →
  (timer_id h < length (timer_list s))%nat →
  (timer_id (get_unique_timer (destroy h s)).1 ≤ timer_id h)%nat ∧
  length (timer_list (get_unique_timer (destroy h s)).2) = length (timer_list s) ∧
  ((∀ j t, (j < timer_id h)%nat → timer_list s !! j = Some t → active t = true) →
   timer_id (get_unique_timer (destroy h s)).1 = timer_id h).
Proof.
  intros Hp Hlt.
  destruct (lookup_lt_is_Some_2 (timer_list s) (timer_id h) Hlt) as [t Ht].
  set (sd := destroy h s).
  assert (Hd : timer_list sd !! timer_id h = Some (clear t)).
  { unfold sd, destroy. rewrite Hp. unfold impl_clear.
    by rewrite lookup_update_slot, Ht. }
  assert (Hlen : length (timer_list sd) = length (timer_list s)).
  { unfold sd, destroy. rewrite Hp. apply length_alter. }
  destruct (first_inactive_spec (timer_list sd) 0) as (Hrange & Hbelow0 & Hat0).
  rewrite Nat.sub_0_r in Hat0.
  assert (Hbelow : ∀ j t0, (j < timer_id (get_unique_timer sd).1)%nat →
                          timer_list sd !! j = Some t0 → active t0 = true).
  { intros j t0 Hj Ht0. by apply (Hbelow0 j t0). }
  assert (Hat : ∀ t0, timer_list sd !! timer_id (get_unique_timer sd).1 = Some t0 →
                      active t0 = false) by (intros t0; apply Hat0).
  assert (Hlen' : length (timer_list (get_unique_timer sd).2) =
                  (length (timer_list sd) `max` S (timer_id (get_unique_timer sd).1))%nat).
  { unfold get_unique_timer; simpl. rewrite length_alter.
    destruct (Nat.eqb_spec (first_inactive (timer_list sd) 0) (length (timer_list sd)));
      [rewrite length_app; simpl|]; simpl in Hrange; lia. }
  clear Hbelow0 Hat0.
  set (i := timer_id (get_unique_timer sd).1) in *.
  assert (Hle : (i ≤ timer_id h)%nat).
  { destruct (decide (i ≤ timer_id h)%nat) as [|Hgt]; [done|].
    by specialize (Hbelow (timer_id h) (clear t) ltac:(lia) Hd). }
  split; [done|]. split; [lia|].
  intros Hall.
  destruct (decide (i = timer_id h)) as [|Hne]; [done|].
  assert (Hlt' : (i < timer_id h)%nat) by lia.
  destruct (lookup_lt_is_Some_2 (timer_list s) i) as [t' Ht']; [lia|].
  assert (Hd' : timer_list sd !! i = Some t').
  { unfold sd, destroy. rewrite Hp. unfold impl_clear.
    by rewrite lookup_update_slot_ne by lia. }
  specialize (Hat t' Hd'). specialize (Hall _ t' Hlt' Ht'). congruence.
Qed.

End HeapSlots.

(** ** Invariants of the programs that use the service *)

Section ClientInvariants.
Import HeapService.
Context {Q : Type} `{PriorityQueue Q}.
Implicit Types (s : timers2 Q) (t : timer_impl) (h : unique_timer) (p : program Q).

Lemma mjoin_lookup_app (hs : list (option unique_timer)) hn (k : nat) :
  mjoin ((hs ++ [Some hn]) !! k) =
    if decide (k = length hs) then Some hn else mjoin (hs !! k).
Proof.
  case_decide as Hk.
  - subst k. by rewrite lookup_app_r, Nat.sub_diag by lia.
  - destruct (decide (k < length hs)%nat).
    + by rewrite lookup_app_l.
    + rewrite lookup_app_r by lia.
      rewrite (lookup_ge_None_2 hs) by lia.
      destruct (k - length hs)%nat as [|m] eqn:Hm; [lia|by destruct m].
Qed.

Lemma mjoin_lookup_insert (hs : list (option unique_timer)) o (k k' : nat) :
  (k < length hs)%nat →
  mjoin (<[k:=o]> hs !! k') = if decide (k = k') then o else mjoin (hs !! k').
Proof.
  intros Hk. case_decide as Hkk.
  - subst k'. by rewrite list_lookup_insert_eq.
  - by rewrite list_lookup_insert_ne.
Qed.

Lemma live_lt p k h : live p k = Some h → (k < length (handles p))%nat.
Proof.
  unfold live. destruct (handles p !! k) eqn:E; [|done].
  intros _. by eapply lookup_lt_Some.
Qed.

(** The slot that [get_unique_timer()] returns is active afterwards. *)
Lemma get_unique_timer_new_active s :
  ∃ t, timer_list (get_unique_timer s).2 !! timer_id (get_unique_timer s).1 = Some t ∧
       active t = true.
Proof.
  unfold get_unique_timer; simpl.
  destruct (first_inactive_spec (timer_list s) 0) as (Hrange & _ & _).
  set (i := first_inactive (timer_list s) 0) in *. simpl in Hrange.
  rewrite list_lookup_alter_eq.
  destruct (Nat.eqb_spec i (length (timer_list s))) as [Heq|Hne].
  - rewrite lookup_app_r, Heq, Nat.sub_diag by lia. simpl. by eexists.
  - destruct (lookup_lt_is_Some_2 (timer_list s) i) as [t Ht]; [lia|].
    rewrite Ht. simpl. by eexists.
Qed.

Lemma impl_set_active i j d s t :
  timer_list s !! i = Some t →
  ∃ t', timer_list (impl_set j d s) !! i = Some t' ∧ active t' = active t.
Proof.
  intros Ht. unfold impl_set.
  destruct (timer_list s !! j) as [tj|] eqn:Hj; [|by exists t].
  destruct (negb (active tj)); [by exists t|].
  destruct (decide (j = i)) as [->|Hne].
  - rewrite lookup_update_slot, Ht. by eexists.
  - rewrite lookup_update_slot_ne by done. by exists t.
Qed.

Lemma impl_set_cb_active i j d cb s t :
  timer_list s !! i = Some t →
  ∃ t', timer_list (impl_set_cb j d cb s) !! i = Some t' ∧ active t' = active t.
Proof.
  intros Ht. unfold impl_set_cb.
  destruct (timer_list s !! j) as [tj|] eqn:Hj; [|by exists t].
  destruct (negb (active tj)); [by exists t|].
  destruct (decide (j = i)) as [->|Hne].
  - rewrite lookup_update_slot, Ht. by eexists.
  - rewrite lookup_update_slot_ne by done. by exists t.
Qed.

Lemma impl_run_active i j s t :
  timer_list s !! i = Some t →
  ∃ t', timer_list (impl_run j s) !! i = Some t' ∧ active t' = active t.
Proof.
  intros Ht. unfold impl_run.
  destruct (timer_list s !! j) as [tj|] eqn:Hj; [|by exists t].
  destruct (negb (active tj)); [by exists t|]. simpl.
  destruct (decide (j = i)) as [->|Hne].
  - rewrite list_lookup_alter_eq, Ht. by eexists.
  - rewrite list_lookup_alter_ne by done. by exists t.
Qed.

Lemma handle_stop_active i h s t :
  timer_list s !! i = Some t →
  ∃ t', timer_list (handle_stop h s) !! i = Some t' ∧ active t' = active t.
Proof.
  intros Ht. unfold handle_stop.
  destruct (decide (timer_id h = i)) as [<-|Hne].
  - rewrite lookup_update_slot, Ht. by eexists.
  - rewrite lookup_update_slot_ne by done. by exists t.
Qed.

(** A call that keeps the handle objects and the active flag of every slot
    keeps the ownership. *)
Lemma owned_ok_service p s' :
  owned_ok p →
  (∀ i t, timer_list (service p) !! i = Some t →
          ∃ t', timer_list s' !! i = Some t' ∧ active t' = active t) →
  owned_ok {| service := s'; handles := handles p |}.
Proof.
  intros Hok Hact k h Hk Hp.
  destruct (Hok k h Hk Hp) as [(t & Ht & Ha) Huniq].
  split; [|exact Huniq].
  destruct (Hact _ _ Ht) as (t' & ? & ?). exists t'. split; [done|congruence].
Qed.

Lemma exec_owned_ok c p p' :
  (∀ j, c ≠ call_construct true j) →
  owned_ok p → exec c p = Some p' → owned_ok p'.
Proof.
  intros Hc Hok Hex.
  destruct c as [|k0|k0 k1|k0|k0 d cb|k0 d|k0|k0| | |b j0]; unfold exec in Hex.
  - (* get_unique_timer *)
    pose proof (get_unique_timer_new_active (service p)) as Hnew.
    assert (Hkeep : ∀ i t, timer_list (service p) !! i = Some t → active t = true →
              timer_id (get_unique_timer (service p)).1 ≠ i ∧
              timer_list (get_unique_timer (service p)).2 !! i = Some t)
      by (intros; by apply get_unique_timer_active).
    revert Hnew Hkeep Hex.
    destruct (get_unique_timer (service p)) as [hn s1]. simpl.
    intros Hnew Hkeep [= <-].
    assert (Hold : ∀ k h, live p k = Some h → parent h = true →
              timer_id hn ≠ timer_id h ∧
              ∃ t, timer_list s1 !! timer_id h = Some t ∧ active t = true).
    { intros k h Hk Hp. destruct (Hok k h Hk Hp) as [(t & Ht & Ha) _].
      destruct (Hkeep (timer_id h) t Ht Ha) as [Hne Hl].
      split; [done|by exists t]. }
    intros k h. unfold live; simpl. rewrite mjoin_lookup_app.
    case_decide as Hk.
    + intros [= <-] _. split; [done|].
      intros k' h'. rewrite mjoin_lookup_app. case_decide; [intros; congruence|].
      intros Hk' Hp' Hid. destruct (Hold k' h' Hk' Hp') as [Hne _]. congruence.
    + intros Hl Hp. destruct (Hold k h Hl Hp) as [Hne Hslot].
      split; [done|].
      intros k' h'. rewrite mjoin_lookup_app. case_decide.
      * intros [= <-] _ Hid. congruence.
      * by apply (Hok k h Hl Hp).
  - (* move construction *)
    destruct (live p k0) as [h0|] eqn:Hk0; simplify_eq/=.
    pose proof (live_lt _ _ _ Hk0) as Hlt.
    intros k h. unfold live; simpl. rewrite mjoin_lookup_app, length_insert.
    case_decide as Hk.
    + intros [= <-]; simpl. intros Hp0.
      destruct (Hok k0 h0 Hk0 Hp0) as [Hslot Huniq]. split; [done|].
      intros k' h'. rewrite mjoin_lookup_app, length_insert.
      case_decide; [intros; congruence|]. rewrite mjoin_lookup_insert by done.
      case_decide; [by intros [= <-]|].
      intros Hk' Hp' Hid. by specialize (Huniq k' h' Hk' Hp' Hid).
    + rewrite mjoin_lookup_insert by done.
      case_decide as Hk'; [by intros [= <-]|].
      intros Hl Hp. destruct (Hok k h Hl Hp) as [Hslot Huniq]. split; [done|].
      intros k' h'. rewrite mjoin_lookup_app, length_insert.
      case_decide.
      * intros [= <-]; simpl. intros Hp0 Hid.
        by specialize (Huniq k0 h0 Hk0 Hp0 Hid).
      * rewrite mjoin_lookup_insert by done.
        case_decide; [by intros [= <-]|]. apply Huniq.
  - (* move assignment *)
    destruct (live p k0) as [this|] eqn:Hk0; simplify_eq/=.
    destruct (live p k1) as [other|] eqn:Hk1; simplify_eq/=.
    case_bool_decide as Hkk; simplify_eq/=; [done|].
    pose proof (live_lt _ _ _ Hk0) as Hlt0.
    pose proof (live_lt _ _ _ Hk1) as Hlt1.
    assert (Hins : ∀ k, mjoin (<[k1:=Some {| parent := false; timer_id := timer_id other |}]>
                           (<[k0:=Some {| parent := parent other;
                                          timer_id := timer_id other |}]>
                              (handles p)) !! k) =
              if decide (k1 = k) then Some {| parent := false; timer_id := timer_id other |}
              else if decide (k0 = k)
                   then Some {| parent := parent other; timer_id := timer_id other |}
                   else live p k).
    { intros k. rewrite mjoin_lookup_insert by (by rewrite length_insert).
      case_decide; [intros; congruence|]. by rewrite mjoin_lookup_insert. }
    intros k h. unfold live at 1; simpl. rewrite Hins.
    case_decide as Hk; [by intros [= <-]|].
    case_decide as Hk'.
    + intros [= <-]; simpl. intros Hpo.
      destruct (Hok k1 other Hk1 Hpo) as [Hslot Huniq]. split; [done|].
      intros k' h'. unfold live; simpl. rewrite Hins.
      case_decide; [by intros [= <-]|]. case_decide; [by subst|].
      intros Hl' Hp' Hid. by specialize (Huniq k' h' Hl' Hp' Hid).
    + intros Hl Hp. destruct (Hok k h Hl Hp) as [Hslot Huniq]. split; [done|].
      intros k' h'. unfold live at 1; simpl. rewrite Hins.
      case_decide; [by intros [= <-]|]. case_decide.
      * intros [= <-]; simpl. intros Hpo Hid.
        by specialize (Huniq k1 other Hk1 Hpo Hid).
      * apply Huniq.
  - (* destruction *)
    destruct (live p k0) as [h0|] eqn:Hk0; simplify_eq/=.
    pose proof (live_lt _ _ _ Hk0) as Hlt.
    intros k h. unfold live at 1; simpl. rewrite mjoin_lookup_insert by done.
    case_decide as Hk; [done|].
    intros Hl Hp. destruct (Hok k h Hl Hp) as [(t & Ht & Ha) Huniq]. split.
    + exists t. split; [|done]. unfold destroy, impl_clear, update_slot.
      destruct (parent h0) eqn:Hp0; simpl; [|done].
      rewrite list_lookup_alter_ne; [done|].
      intros Hid. by specialize (Huniq k0 h0 Hk0 Hp0 Hid).
    + intros k' h'. unfold live at 1; simpl. rewrite mjoin_lookup_insert by done.
      case_decide; [intros; congruence|]. apply Huniq.
  - (* set with a callback *)
    destruct (owner p k0) as [h0|]; simplify_eq/=.
    apply owned_ok_service; [done|]. intros i t. apply impl_set_cb_active.
  - (* set *)
    destruct (owner p k0) as [h0|]; simplify_eq/=.
    apply owned_ok_service; [done|]. intros i t. apply impl_set_active.
  - (* run *)
    destruct (owner p k0) as [h0|]; simplify_eq/=.
    apply owned_ok_service; [done|]. intros i t. apply impl_run_active.
  - (* stop *)
    destruct (owner p k0) as [h0|]; simplify_eq/=.
    apply owned_ok_service; [done|]. intros i t. apply handle_stop_active.
  - (* step_all *)
    injection Hex as <-.
    apply owned_ok_service; [done|]. intros i t. apply step_all_active.
  - (* stop_all *)
    injection Hex as <-.
    apply owned_ok_service; [done|]. intros i t. apply stop_all_active.
  - (* construction with a null parent *)
    injection Hex as <-. destruct b; [by destruct (Hc j0)|].
    intros k h. unfold live; simpl. rewrite mjoin_lookup_app.
    case_decide; [by intros [= <-]|].
    intros Hl Hp. destruct (Hok k h Hl Hp) as [Hslot Huniq]. split; [done|].
    intros k' h'. rewrite mjoin_lookup_app.
    case_decide; [by intros [= <-]|]. apply Huniq.
Qed.

(** X23.  Ownership stays exclusive: in every state that a program reaches
    from a new service without undefined behaviour and without constructing a
    handle on the service with the public constructor
    [unique_timer(parent, id)], each handle object in its lifetime whose
    [parent] is not null names an active slot of the vector, and no two of
    them name the same slot. *)
Theorem ownership_exclusive (cs : list call) p :
  Forall (λ c, ∀ j, c ≠ call_construct true j) cs →
  exec_all cs program_new = Some p →
  owned_ok p.
Proof.
  assert (Hgen : ∀ cs, Forall (λ c, ∀ j, c ≠ call_construct true j) cs →
                 ∀ p0 p1, owned_ok p0 → exec_all cs p0 = Some p1 → owned_ok p1).
  { clear. induction 1 as [|c cs Hc Hcs IH]; intros p0 p1 Hok; simpl.
    - by intros [= <-].
    - destruct (exec c p0) as [p'|] eqn:Hex; simpl; [|done].
      apply IH. by apply (exec_owned_ok c p0). }
  intros Hcs. apply Hgen; [done|].
  intros k h. unfold live; simpl. by rewrite lookup_nil.
Qed.

End ClientInvariants.

Section QueueInvariant.
Import HeapService.
Context {Q : Type} `{PriorityQueue Q} `{!PriorityQueueLaws Q}.
Implicit Types (s : timers2 Q) (t : timer_impl) (h : unique_timer) (p : program Q).

(** A call that pushes nothing and removes no slot keeps the entries of the
    queue within the vector. *)
Lemma queue_ok_shrink s s' :
  queue_ok s →
  (∀ e, e ∈ pq_elements (running_timers s') → e ∈ pq_elements (running_timers s)) →
  (length (timer_list s) ≤ length (timer_list s'))%nat →
  queue_ok s'.
Proof.
  intros Hok Hsub Hlen e He. specialize (Hok e (Hsub e He)). lia.
Qed.

Lemma impl_run_queue_ok j s : queue_ok s → queue_ok (impl_run j s).
Proof.
  intros Hok. unfold impl_run.
  destruct (timer_list s !! j) as [tj|] eqn:Hj; [|done].
  destruct (negb (active tj)); [done|].
  intros e. simpl. rewrite pq_elements_emplace, length_alter.
  intros [->|He]%elem_of_cons; [|by apply Hok].
  simpl. by eapply lookup_lt_Some.
Qed.

Lemma exec_queue_ok c p p' :
  queue_ok (service p) → exec c p = Some p' → queue_ok (service p').
Proof.
  intros Hok Hex.
  destruct c as [|k0|k0 k1|k0|k0 d cb|k0 d|k0|k0| | |b j0]; unfold exec in Hex;
    [| | | | | | | | | |by injection Hex as <-].
  - (* get_unique_timer *)
    injection Hex as <-. simpl.
    apply (queue_ok_shrink (service p)); [done|done|]. simpl.
    rewrite length_alter. destruct (_ =? _)%nat; [|done].
    rewrite length_app. lia.
  - destruct (live p k0); by simplify_eq/=.
  - destruct (live p k0); simplify_eq/=. destruct (live p k1); simplify_eq/=.
    by case_bool_decide; simplify_eq/=.
  - (* destruction *)
    destruct (live p k0) as [h0|]; simplify_eq/=.
    apply (queue_ok_shrink (service p)); [done| |];
      unfold destroy, impl_clear; destruct (parent h0); simpl; try done.
    by rewrite length_alter.
  - (* set with a callback *)
    destruct (owner p k0) as [h0|]; simplify_eq/=.
    apply (queue_ok_shrink (service p)); [done| |];
      unfold handle_set_cb, impl_set_cb;
      destruct (timer_list (service p) !! timer_id h0) as [t|]; try done;
      destruct (negb (active t)); simpl; try done.
    by rewrite length_alter.
  - (* set *)
    destruct (owner p k0) as [h0|]; simplify_eq/=.
    apply (queue_ok_shrink (service p)); [done| |];
      unfold handle_set, impl_set;
      destruct (timer_list (service p) !! timer_id h0) as [t|]; try done;
      destruct (negb (active t)); simpl; try done.
    by rewrite length_alter.
  - (* run *)
    destruct (owner p k0) as [h0|]; simplify_eq/=.
    by apply impl_run_queue_ok.
  - (* stop *)
    destruct (owner p k0) as [h0|]; simplify_eq/=.
    apply (queue_ok_shrink (service p)); [done|done|].
    simpl. by rewrite length_alter.
  - (* step_all *)
    injection Hex as <-. simpl.
    apply (queue_ok_shrink (service p)); [done| |].
    + intros e. unfold step_all.
      apply (step_all_loop_queue _ (with_cur_time (wrap32 (cur_time (service p) + 1))
                                      (service p))).
    + unfold step_all.
      set (s1 := with_cur_time (wrap32 (cur_time (service p) + 1)) (service p)).
      by destruct (step_all_loop_frame (pq_size (running_timers s1)) s1) as [_ ->].
  - (* stop_all *)
    injection Hex as <-. simpl.
    apply (queue_ok_shrink (service p)); [done| |].
    + intros e. simpl. rewrite pop_all_empty by done. by intros ?%elem_of_nil.
    + simpl. by rewrite length_fmap.
Qed.

(** X24.  The queue never names a slot that does not exist: in every state
    that a program reaches from a new service without undefined behaviour,
    handles constructed with the public constructor included, every entry of
    the queue, the top one included, has a [timer_id] below the size of the
    vector, so that [step_all()] indexes the vector within its bounds. *)
Theorem queue_within_vector (cs : list call) p :
  exec_all cs program_new = Some p →
  queue_ok (service p) ∧
  ∀ e, pq_top (running_timers (service p)) = Some e →
       is_Some (timer_list (service p) !! run_timer_id e).
Proof.
  assert (Hgen : ∀ cs p0 p1, queue_ok (service p0) → exec_all cs p0 = Some p1 →
                             queue_ok (service p1)).
  { clear cs p. induction cs as [|c cs IH]; intros p0 p1 Hok; simpl.
    - by intros [= <-].
    - destruct (exec c p0) as [p'|] eqn:Hex; simpl; [|done].
      apply IH. by apply (exec_queue_ok c p0). }
  intros Hex.
  assert (Hok : queue_ok (service p)).
  { apply (Hgen cs program_new); [|done].
    intros e. simpl. rewrite pq_elements_new. by intros ?%elem_of_nil. }
  split; [done|]. intros e Htop. apply lookup_lt_is_Some_2, Hok.
  rewrite (pq_elements_pop _ e Htop). by apply elem_of_cons; left.
Qed.

End QueueInvariant.

(** ** The further properties on the ordered list *)

Section MoreScenarios.
Import HeapService.

Local Abbreviation new_service := (timers2_new (Q := list timer_run)).
Local Abbreviation slot0 := (get_unique_timer new_service).2.
Local Abbreviation two_slots := (get_unique_timer slot0).2.
Local Abbreviation h0 := {| parent := true; timer_id := 0 |}.
Local Abbreviation h1 := {| parent := true; timer_id := 1 |}.

(** Two slots armed with callbacks 7 and 8 for 2 and 3 ticks. *)
Local Abbreviation two_running :=
  (handle_run h1 (handle_set_cb h1 3 (Some 8%nat)
     (handle_run h0 (handle_set_cb h0 2 (Some 7%nat) two_slots)))).



Lemma step_all_queue_witness :
  pq_elements (running_timers (step_all_times 2 two_running).2)
    = [{| run_timer_id := 0; run_timeout := 2 |};
       {| run_timer_id := 1; run_timeout := 3 |}] ∧
  ∀ e, e ∈ pq_elements (running_timers (step_all (step_all_times 2 two_running).2).2) →
       3 ≤ run_timeout e.
Proof.
  split; [reflexivity|].
  exact (proj2 (step_all_queue (step_all_times 2 two_running).2) eq_refl).
Defined.


Lemma run_without_callback_throws_witness :
  let s := handle_set h0 2 slot0 in
  (step_all_times 3 (handle_run h0 s)).1 = bad_function_call ∧
  calls_of 0 (trace (step_all_times 3 (handle_run h0 s)).2) = [].
Proof.
  intros s.
  assert (Hsum : 0 < cur_time s + 2 < UINT32_MAX) by (by vm_compute).
  exact (run_without_callback_throws h0 s
           {| duration := 2; timeout := 0; running := false; active := true;
              callback := None |}
           eq_refl eq_refl eq_refl ltac:(simpl; lia) ltac:(reflexivity) Hsum).
Defined.

Lemma destroy_cancels_witness :
  trace (step_all_times 5 two_running).2 = [called 7%nat 0%nat; called 8%nat 1%nat] ∧
  calls_of 0 (trace (step_all_times 5 (destroy h0 two_running)).2) = [] ∧
  timer_list (step_all_times 5 (destroy h0 two_running)).2 !! 0%nat = Some timer_impl_new.
Proof.
  split; [reflexivity|].
  exact (destroy_cancels h0 two_running 5 eq_refl).
Defined.

Lemma stop_all_cancels_everything_witness :
  pq_elements (running_timers (stop_all two_running)) = [] ∧
  is_running <$> timer_list (stop_all two_running) = [false; false] ∧
  (step_all_times 5 (stop_all two_running)).1 = returned ∧
  trace (step_all_times 5 (stop_all two_running)).2 = [].
Proof.
  destruct (stop_all_cancels_everything two_running) as (He & _ & _ & _ & Hn).
  destruct (Hn 5%nat) as (Hr & Htr & _).
  split; [exact He|]. split; [reflexivity|]. split; [exact Hr | exact Htr].
Defined.

Lemma get_unique_timer_reuses_witness :
  let s := (get_unique_timer two_slots).2 in
  length (timer_list s) = 3%nat ∧
  (timer_id (get_unique_timer (destroy h1 s)).1 ≤ 1)%nat ∧
  length (timer_list (get_unique_timer (destroy h1 s)).2) = 3%nat ∧
  timer_id (get_unique_timer (destroy h1 s)).1 = 1%nat.
Proof.
  intros s. split; [reflexivity|].
  assert (Hlt : (timer_id h1 < length (timer_list s))%nat) by (vm_compute; lia).
  destruct (get_unique_timer_reuses h1 s eq_refl Hlt) as (Hle & Hlen & Hsame).
  split; [exact Hle|]. split; [exact Hlen|].
  apply Hsame. intros [|j] t Hj; simpl in *; [|lia].
  by intros [= <-].
Defined.

Lemma ownership_exclusive_witness :
  ∃ p : program (list timer_run),
    exec_all [call_get_unique_timer; call_get_unique_timer; call_move_construct 0;
              call_destroy 1; call_get_unique_timer; call_move_assign 0 2;
              call_run 0; call_step_all; call_destroy 3] program_new = Some p ∧
    owned_ok p.
Proof.
  eexists. split; [reflexivity|].
  apply (ownership_exclusive
           [call_get_unique_timer; call_get_unique_timer; call_move_construct 0;
            call_destroy 1; call_get_unique_timer; call_move_assign 0 2;
            call_run 0; call_step_all; call_destroy 3]); [|reflexivity].
  by repeat constructor.
Defined.

Lemma queue_within_vector_witness :
  ∃ p : program (list timer_run),
    exec_all [call_get_unique_timer; call_set 0 3; call_run 0;
              call_get_unique_timer; call_set 1 1; call_run 1; call_run 0;
              call_destroy 1; call_step_all] program_new = Some p ∧
    pq_elements (running_timers (service p))
      = [{| run_timer_id := 1; run_timeout := 1 |};
         {| run_timer_id := 0; run_timeout := 3 |};
         {| run_timer_id := 0; run_timeout := 3 |}] ∧
    queue_ok (service p).
Proof.
  eexists. split; [reflexivity|]. split; [reflexivity|].
  apply (queue_within_vector
           [call_get_unique_timer; call_set 0 3; call_run 0;
            call_get_unique_timer; call_set 1 1; call_run 1; call_run 0;
            call_destroy 1; call_step_all]).
  reflexivity.
Defined.

End MoreScenarios.
